(** * w-elo: the Elo rating plugin (src/index.ts, src/utils.ts)

    A shallow embedding of the three commands of the plugin
    ([elo.register], [elo.check], [elo.update]) over the two tables it
    declares ([w-elo] and [w-elo-request]).

    Conventions of the embedding.
    - A JavaScript [number] is a real number ([R]): rounding, overflow and
      the special values of IEEE arithmetic are outside the model, and
      nothing is stated here that holds of the reals but not of the rounded
      values the code computes (exact cancellation of the two deltas, strict
      signs, strict bounds).  Real division agrees with the JavaScript
      operator only for a non-zero divisor, so the statements about the
      values of the deltas carry the hypothesis that [initialElo] is not
      zero.
    - A string is a [string] whose characters are code units below 256.
    - The database service is not part of the plugin: a table is the list
      of its rows in insertion order, a query returns the matching rows in
      that order, a row holds the numbers it was given, and no store
      operation fails other than a [create] on a key that is taken.
    - The writes that an action starts without awaiting them (the two
      [set]s and the [remove] of a confirmation, the [create] of a
      proposal) are taken to complete, in the order they are issued, before
      the next command is handled: commands run one after another. *)

From Stdlib Require Import Reals Lra Lia List String Ascii ZArith NArith Bool.
From Stdlib Require Import DecimalString.
Import ListNotations.

Local Open Scope string_scope.
Local Open Scope list_scope.
Local Open Scope R_scope.

(** ** Data model *)

(** [interface Config]. *)
Record Config : Type := mkConfig {
  initialElo : R;
  k : R
}.

(** The defaults of the [Config] schema. *)
Definition defaultConfig : Config := {| initialElo := 400; k := 32 |}.

(** [interface Elo]: a row of the table [w-elo], primary key [uid]. *)
Record Elo : Type := mkElo {
  uid : string;
  name : string;
  elo : R
}.

(** [const enum EloStatus { Lose = 0, Win = 1 }]. *)
Inductive EloStatus : Type := Lose | Win.

(** The number an [EloStatus] stands for in arithmetic. *)
Definition statusValue (s : EloStatus) : R :=
  match s with Lose => 0 | Win => 1 end.

(** [1 - status], used as an index into [elo-status.*]. *)
Definition flipStatus (s : EloStatus) : EloStatus :=
  match s with Lose => Win | Win => Lose end.

(** [interface EloRequest]: a row of [w-elo-request], primary key [rid],
    assigned by the store ([autoInc]). *)
Record EloRequest : Type := mkEloRequest {
  rid : N;
  src : string;
  dest : string;
  status : EloStatus;
  srcDeltaElo : R;
  destDeltaElo : R
}.

(** The two tables, and the counter behind [autoInc]. *)
Record Database : Type := mkDatabase {
  w_elo : list Elo;
  w_elo_request : list EloRequest;
  autoInc : N
}.

Definition emptyDatabase : Database :=
  {| w_elo := []; w_elo_request := []; autoInc := 1 |}.

(** ** utils.ts *)

(** [Math.round]: the nearest integer, halves upwards. *)
Definition Math_round (x : R) : Z := Int_part (x + / 2).

(** The decimal rendering of an integer in a template string: all its
    digits, which is what JavaScript prints for an integer of at most 2^53
    in absolute value (beyond, it prints the shortest digits that round
    back, and exponent form from 1e21 on). *)
Definition showZ (z : Z) : string := NilZero.string_of_int (Z.to_int z).

(** [showDeltaElo]. *)
Definition showDeltaElo (deltaElo : R) : string :=
  let sign := if Rlt_dec 0 deltaElo then "+" else "" in
  (sign ++ showZ (Math_round deltaElo))%string.

(** [showElo]. *)
Definition showElo (elo : R) : string := showZ (Math_round elo).

(** ** Strings *)

(** The white space of [String.prototype.trim] among the code units below
    256: TAB, LF, VT, FF, CR, SP and NBSP. *)
Definition isWhiteSpace (c : ascii) : bool :=
  let n := nat_of_ascii c in
  ((9 <=? n) && (n <=? 13) || (n =? 32) || (n =? 160))%nat.

Fixpoint trimStart (s : string) : string :=
  match s with
  | EmptyString => EmptyString
  | String c s' => if isWhiteSpace c then trimStart s' else s
  end.

Fixpoint trimEnd (s : string) : string :=
  match s with
  | EmptyString => EmptyString
  | String c s' =>
      match trimEnd s' with
      | EmptyString => if isWhiteSpace c then EmptyString else String c EmptyString
      | t => String c t
      end
  end.

(** [s.trim()]. *)
Definition trim (s : string) : string := trimEnd (trimStart s).

(** Truthiness of a string: only the empty string is falsy. *)
Definition truthy (s : string) : bool :=
  match s with EmptyString => false | _ => true end.

(** ** The database service

    The operations of [ctx.database] that the plugin calls, each as a
    function on the tables. *)

(** The messages of the plugin: the key given to [session.text] with its
    parameters.  [Rejected] is an action whose promise rejects. *)
Inductive Reply : Type :=
| elo_register_invalid_name
| elo_register_duplicate (name : string)
| elo_register_ok (name : string) (elo : R)
| elo_need_register
| elo_user_not_found (uid : string)
| elo_check (name : string) (elo : string)
| elo_update_accept_ok (selfName oppoName : string)
    (selfNewElo selfDeltaElo oppoNewElo oppoDeltaElo : string)
    (status : EloStatus)
| elo_update_request_duplicate (selfName oppoName : string)
| elo_update_request_ok (selfName oppoName : string) (status : EloStatus)
| Rejected.

(** An action reads and writes the database and yields a value. *)
Definition Action (A : Type) : Type := Database -> A * Database.

Definition ret {A : Type} (a : A) : Action A := fun db => (a, db).

Definition bind {A B : Type} (m : Action A) (f : A -> Action B) : Action B :=
  fun db => let (a, db') := m db in f a db'.

Declare Scope action_scope.
Delimit Scope action_scope with action.
Notation "x <- m ;; f" := (bind m (fun x => f))
  (at level 61, m at next level, right associativity) : action_scope.
Notation "m ;;; f" := (bind m (fun _ => f))
  (at level 61, right associativity) : action_scope.

(** Modelled from the spec: [getPlayer], the query [get('w-elo', uid)] by
    primary key; the rows found, none on a miss. *)
Definition getElo (id : string) : Action (list Elo) :=
  fun db => (filter (fun p => String.eqb (uid p) id) (w_elo db), db).

(** Modelled from the spec: [createPlayer], [create('w-elo', row)]; it
    fails, writing nothing, when the primary key is taken. *)
Definition createElo (row : Elo) : Action bool :=
  fun db =>
    if existsb (fun p => String.eqb (uid p) (uid row)) (w_elo db)
    then (false, db)
    else (true, {| w_elo := w_elo db ++ [row];
                   w_elo_request := w_elo_request db;
                   autoInc := autoInc db |}).

(** Modelled from the spec: [setPlayerRating], [set('w-elo', uid, { elo })];
    only the field [elo] of the rows with that key is overwritten.  The
    plugin calls it for keys it has just read; on an absent key no row
    matches and nothing is written. *)
Definition setRow (id : string) (newElo : R) (row : Elo) : Elo :=
  if String.eqb (uid row) id
  then {| uid := uid row; name := name row; elo := newElo |}
  else row.

Definition setElo (id : string) (newElo : R) : Action unit :=
  fun db =>
    (tt, {| w_elo := map (setRow id newElo) (w_elo db);
            w_elo_request := w_elo_request db;
            autoInc := autoInc db |}).

(** Modelled from the spec: [findChallenge],
    [get('w-elo-request', { src, dest })]; exact directed match. *)
Definition getRequest (s d : string) : Action (list EloRequest) :=
  fun db =>
    (filter (fun r => String.eqb (src r) s && String.eqb (dest r) d)
            (w_elo_request db), db).

(** Modelled from the spec: [createChallenge], [create('w-elo-request', row)];
    the store assigns a fresh, increasing [rid] and checks nothing else. *)
Definition createRequest (s d : string) (st : EloStatus) (sd dd : R) : Action unit :=
  fun db =>
    (tt, {| w_elo := w_elo db;
            w_elo_request := w_elo_request db ++
              [ {| rid := autoInc db; src := s; dest := d; status := st;
                   srcDeltaElo := sd; destDeltaElo := dd |} ];
            autoInc := N.succ (autoInc db) |}).

(** Modelled from the spec: [deleteChallenge], [remove('w-elo-request', rid)];
    nothing happens on a miss. *)
Definition removeRequest (id : N) : Action unit :=
  fun db =>
    (tt, {| w_elo := w_elo db;
            w_elo_request := filter (fun r => negb (N.eqb (rid r) id)) (w_elo_request db);
            autoInc := autoInc db |}).

(** ** The Elo formula (index.ts, lines 164-169)

    The local constants of the proposal branch of [elo.update], as
    functions of what they are computed from. *)

Section Formula.
Variable config : Config.

(** [10 ** x]. *)
Definition pow10 (x : R) : R := Rpower 10 x.

Definition diffElo (selfElo oppoElo : R) : R := oppoElo - selfElo.

Definition selfE (selfElo oppoElo : R) : R :=
  1 / (1 + pow10 (diffElo selfElo oppoElo / initialElo config)).

Definition oppoE (selfElo oppoElo : R) : R :=
  1 / (1 + pow10 (- diffElo selfElo oppoElo / initialElo config)).

(** [options.win ? EloStatus.Win : EloStatus.Lose]; the option is
    [true] under [-w], [false] under [-l] or [--lose], and undefined when
    no flag is given. *)
Definition declaredStatus (win : option bool) : EloStatus :=
  match win with Some true => Win | _ => Lose end.

Definition selfDeltaElo (st : EloStatus) (selfElo oppoElo : R) : R :=
  k config * (statusValue st - selfE selfElo oppoElo).

Definition oppoDeltaElo (st : EloStatus) (selfElo oppoElo : R) : R :=
  k config * (1 - statusValue st - oppoE selfElo oppoElo).
End Formula.

(** ** The commands *)

Section Commands.
Variable config : Config.
Local Open Scope action_scope.

(** [elo.register <name:string>]. *)
Definition elo_register (sessionUid : string) (rawName : string) : Action Reply :=
  let trimmed := trim rawName in
  if negb (truthy trimmed) then ret elo_register_invalid_name else
  rows <- getElo sessionUid ;;
  match rows with
  | self :: _ => ret (elo_register_duplicate (name self))
  | [] =>
      let initial := initialElo config in
      created <- createElo {| uid := sessionUid; name := trimmed; elo := initial |} ;;
      if created then ret (elo_register_ok trimmed initial) else ret Rejected
  end.

(** [elo.check [user:user]]. *)
Definition elo_check_cmd (sessionUid : string) (userId : option string) : Action Reply :=
  let given := match userId with Some u => truthy u | None => false end in
  let queried := match userId with
                 | Some u => if truthy u then u else sessionUid
                 | None => sessionUid
                 end in
  rows <- getElo queried ;;
  match rows with
  | [] => if given
          then ret (elo_user_not_found (match userId with Some u => u | None => "" end))
          else ret elo_need_register
  | user :: _ => ret (elo_check (name user) (showElo (elo user)))
  end.

(** The confirmation branch of [elo.update] (lines 127-146): [req] is
    the request found with [src = oppoId] and [dest = selfId]. *)
Definition acceptRequest (selfId oppoId : string) (self oppo : Elo)
           (req : EloRequest) : Action Reply :=
  let selfDeltaElo := destDeltaElo req in
  let oppoDeltaElo := srcDeltaElo req in
  let selfNewElo := elo self + selfDeltaElo in
  let oppoNewElo := elo oppo + oppoDeltaElo in
  setElo selfId selfNewElo ;;;
  setElo oppoId oppoNewElo ;;;
  removeRequest (rid req) ;;;
  ret (elo_update_accept_ok (name self) (name oppo)
         (showElo selfNewElo) (showDeltaElo selfDeltaElo)
         (showElo oppoNewElo) (showDeltaElo oppoDeltaElo)
         (flipStatus (status req))).

(** The proposal branch of [elo.update] (lines 157-184): the ratings are
    read again, and the destructuring throws when a row is missing. *)
Definition proposeRequest (selfId oppoId : string) (self oppo : Elo)
           (win : option bool) : Action Reply :=
  selfRows <- getElo selfId ;;
  oppoRows <- getElo oppoId ;;
  match selfRows, oppoRows with
  | selfRow :: _, oppoRow :: _ =>
      let selfElo := elo selfRow in
      let oppoElo := elo oppoRow in
      let status := declaredStatus win in
      createRequest selfId oppoId status
        (selfDeltaElo config status selfElo oppoElo)
        (oppoDeltaElo config status selfElo oppoElo) ;;;
      ret (elo_update_request_ok (name self) (name oppo) status)
  | _, _ => ret Rejected
  end.

(** [elo.update <user:user>], with the option [win]. *)
Definition elo_update (sessionUid oppoId : string) (win : option bool) : Action Reply :=
  let selfId := sessionUid in
  selfRows <- getElo selfId ;;
  oppoRows <- getElo oppoId ;;
  match selfRows, oppoRows with
  | [], _ => ret elo_need_register
  | _ :: _, [] => ret (elo_user_not_found oppoId)
  | self :: _, oppo :: _ =>
      let selfName := name self in
      let oppoName := name oppo in
      reqs <- getRequest oppoId selfId ;;
      match reqs with
      | req :: _ => acceptRequest selfId oppoId self oppo req
      | [] =>
          dups <- getRequest selfId oppoId ;;
          match dups with
          | _ :: _ => ret (elo_update_request_duplicate selfName oppoName)
          | [] => proposeRequest selfId oppoId self oppo win
          end
      end
  end.

(** A command as the plugin receives it: who calls ([session.uid]) and
    with which arguments. *)
Inductive Command : Type :=
| Register (sessionUid rawName : string)
| CheckElo (sessionUid : string) (userId : option string)
| Update (sessionUid oppoId : string) (win : option bool).

Definition handle (c : Command) : Action Reply :=
  match c with
  | Register u n => elo_register u n
  | CheckElo u t => elo_check_cmd u t
  | Update u o w => elo_update u o w
  end.

(** The database after a sequence of commands, each one complete before
    the next. *)
Fixpoint exec (cs : list Command) (db : Database) : Database :=
  match cs with
  | [] => db
  | c :: cs' => exec cs' (snd (handle c db))
  end.

(** The databases the plugin can be in: those a sequence of commands
    leads to from the empty tables. *)
Definition reachable (db : Database) : Prop :=
  exists cs, db = exec cs emptyDatabase.
End Commands.

(** ** Reading the tables in statements *)

(** [const [ self ] = await ctx.database.get('w-elo', id)]: the first row
    found, if any. *)
Definition findElo (id : string) (db : Database) : option Elo :=
  hd_error (fst (getElo id db)).

(** [const [ req ] = await ctx.database.get('w-elo-request', { src, dest })]. *)
Definition findRequest (s d : string) (db : Database) : option EloRequest :=
  hd_error (fst (getRequest s d db)).

(** A request between [a] and [b], in either direction. *)
Definition between (a b : string) (r : EloRequest) : bool :=
  String.eqb (src r) a && String.eqb (dest r) b
  || String.eqb (src r) b && String.eqb (dest r) a.

(** The pending requests of the unordered pair [{a, b}]. *)
Definition pendingBetween (a b : string) (db : Database) : list EloRequest :=
  filter (between a b) (w_elo_request db).

(** [row] with its rating replaced, as [set] leaves it. *)
Definition withElo (row : Elo) (newElo : R) : Elo :=
  {| uid := uid row; name := name row; elo := newElo |}.

(** ** The vocabulary of the specification *)

(** The error kinds of section 7 of the specification. *)
Inductive ErrorKind : Type :=
| InvalidName
| AlreadyRegistered
| CallerNotRegistered
| UserNotFound
| OpponentNotFound
| DuplicateChallenge
| NothingPending
| StoreUnavailable.

(** The error a reply of [elo.register] stands for, if it is one. *)
Definition registerError (r : Reply) : option ErrorKind :=
  match r with
  | elo_register_invalid_name => Some InvalidName
  | elo_register_duplicate _ => Some AlreadyRegistered
  | Rejected => Some StoreUnavailable
  | _ => None
  end.

(** The error a reply of [elo.update] stands for, if it is one.  No
    message of the plugin stands for [NothingPending]. *)
Definition challengeError (r : Reply) : option ErrorKind :=
  match r with
  | elo_need_register => Some CallerNotRegistered
  | elo_user_not_found _ => Some OpponentNotFound
  | elo_update_request_duplicate _ _ => Some DuplicateChallenge
  | Rejected => Some StoreUnavailable
  | _ => None
  end.

(** The Elo delta computation as section 4.2 of the specification words
    it, to be compared with the constants of the source. *)
Module EloSpec.
Inductive Outcome : Type := DeclaredWin | DeclaredLose.

Section Deltas.
Variables (S K : R) (callerRating opponentRating : R) (outcome : Outcome).

Definition ratingDiff : R := opponentRating - callerRating.
Definition expectedCaller : R := 1 / (1 + Rpower 10 (ratingDiff / S)).
Definition expectedOpponent : R := 1 / (1 + Rpower 10 (- ratingDiff / S)).
Definition actualCaller : R :=
  match outcome with DeclaredWin => 1 | DeclaredLose => 0 end.
Definition callerDelta : R := K * (actualCaller - expectedCaller).
Definition opponentDelta : R := K * ((1 - actualCaller) - expectedOpponent).
End Deltas.
End EloSpec.

(** The outcome a stored status declares. *)
Definition outcomeOf (s : EloStatus) : EloSpec.Outcome :=
  match s with Win => EloSpec.DeclaredWin | Lose => EloSpec.DeclaredLose end.

(** ** The invariant of the tables *)

(** What every database the plugin builds satisfies: the [rid]s in use
    are below the counter and pairwise different, the two ends of a pending
    request are registered, and an unordered pair of players has at most
    one pending request. *)
Record Invariant (db : Database) : Prop := mkInvariant {
  inv_fresh : Forall (fun r => (rid r < autoInc db)%N) (w_elo_request db);
  inv_rids : NoDup (map rid (w_elo_request db));
  inv_registered :
    Forall (fun r => findElo (src r) db <> None /\ findElo (dest r) db <> None)
           (w_elo_request db);
  inv_pairs : forall a b, (List.length (pendingBetween a b db) <= 1)%nat
}.

(** ** Scenarios

    Small histories of commands under the default configuration, used to
    evaluate the statements below on concrete tables. *)

(** Two registered players. *)
Definition twoPlayers : list Command :=
  [Register "A" "alice"; Register "B" "bob"].

(** A has proposed a win against B. *)
Definition proposedDb : Database :=
  exec defaultConfig (twoPlayers ++ [Update "A" "B" (Some true)]) emptyDatabase.

(** The request that A's proposal stores. *)
Definition proposedRequest : EloRequest :=
  {| rid := 1; src := "A"; dest := "B"; status := Win;
     srcDeltaElo := selfDeltaElo defaultConfig Win 400 400;
     destDeltaElo := oppoDeltaElo defaultConfig Win 400 400 |}.

(** B has confirmed A's proposal. *)
Definition confirmedDb : Database :=
  snd (elo_update defaultConfig "B" "A" None proposedDb).

(** A alone, having proposed a win against itself. *)
Definition selfProposedDb : Database :=
  exec defaultConfig [Register "A" "alice"; Update "A" "A" (Some true)] emptyDatabase.

(** ** Proof steps for the actions *)

(** Turn what was read from the tables into equations on the queries. *)
Ltac read_tables :=
  unfold findElo, findRequest, getElo, getRequest in *; cbn [fst] in *;
  repeat match goal with
         | H : hd_error ?l = Some _ |- _ =>
             destruct l eqn:?; [discriminate H|cbn in H; injection H as ->]
         | H : hd_error ?l = None |- _ =>
             destruct l eqn:?; [clear H|discriminate H]
         end.

(** Run [elo.update] along the rows that were read. *)
Ltac run_action :=
  unfold elo_update, proposeRequest, bind, getElo, getRequest; cbn;
  repeat match goal with
         | H : filter _ _ = _ |- _ => rewrite H; cbn
         end.

(** ** The three branches of [elo.update] *)

Lemma hd_error_cons {A : Type} (l : list A) (a : A) :
  hd_error l = Some a -> exists l', l = a :: l'.
Proof. destruct l as [|b l']; cbn; [discriminate|]. intros [= ->]. now exists l'. Qed.

Lemma hd_error_nil {A : Type} (l : list A) : hd_error l = None -> l = [].
Proof. destruct l; cbn; [reflexivity|discriminate]. Qed.

Section Branches.
Variable config : Config.
Variables (selfId oppoId : string) (win : option bool) (db : Database).
Variables (self oppo : Elo).
Hypothesis Hself : findElo selfId db = Some self.
Hypothesis Hoppo : findElo oppoId db = Some oppo.

Lemma elo_update_accept (req : EloRequest) :
  findRequest oppoId selfId db = Some req ->
  elo_update config selfId oppoId win db
  = acceptRequest selfId oppoId self oppo req db.
Proof. intros Hreq. read_tables. run_action. reflexivity. Qed.

Lemma elo_update_duplicate (req : EloRequest) :
  findRequest oppoId selfId db = None ->
  findRequest selfId oppoId db = Some req ->
  elo_update config selfId oppoId win db
  = (elo_update_request_duplicate (name self) (name oppo), db).
Proof. intros Hrev Hdup. read_tables. run_action. reflexivity. Qed.

Lemma elo_update_propose :
  findRequest oppoId selfId db = None ->
  findRequest selfId oppoId db = None ->
  elo_update config selfId oppoId win db
  = (elo_update_request_ok (name self) (name oppo) (declaredStatus win),
     snd (createRequest selfId oppoId (declaredStatus win)
            (selfDeltaElo config (declaredStatus win) (elo self) (elo oppo))
            (oppoDeltaElo config (declaredStatus win) (elo self) (elo oppo)) db)).
Proof. intros Hrev Hdup. read_tables. run_action. reflexivity. Qed.
End Branches.

(** ** Lists of rows *)

Lemma filter_map_commute {A : Type} (f : A -> A) (p : A -> bool) (l : list A) :
  (forall x, p (f x) = p x) -> filter p (map f l) = map f (filter p l).
Proof.
  intros Hp. induction l as [|x l IH]; cbn; [reflexivity|].
  rewrite Hp. destruct (p x); cbn; now rewrite IH.
Qed.

Lemma filter_filter_length {A : Type} (p q : A -> bool) (l : list A) :
  (List.length (filter p (filter q l)) <= List.length (filter p l))%nat.
Proof.
  induction l as [|x l IH]; cbn; [lia|].
  destruct (q x) eqn:Hq; cbn; destruct (p x) eqn:Hp; cbn; lia.
Qed.

Lemma filter_nil_iff {A : Type} (p : A -> bool) (l : list A) :
  filter p l = [] <-> forall x, In x l -> p x = false.
Proof.
  induction l as [|x l IH]; cbn.
  - split; [intros _ y []|reflexivity].
  - destruct (p x) eqn:Hx; split.
    + discriminate.
    + intros H. specialize (H x (or_introl eq_refl)). congruence.
    + intros H y [<-|Hy]; [assumption|]. now apply IH.
    + intros H. apply IH. intros y Hy. apply H. now right.
Qed.

(** Removing by a key that occurs once takes out exactly that row. *)
Lemma remove_unique_rid (l : list EloRequest) (req : EloRequest) :
  NoDup (map rid l) -> In req l ->
  exists l1 l2, l = l1 ++ req :: l2
    /\ filter (fun r => negb (N.eqb (rid r) (rid req))) l = l1 ++ l2.
Proof.
  induction l as [|x l IH]; cbn; [intros _ []|].
  intros Hnd Hin. inversion Hnd as [|? ? Hx Hnd']; subst.
  destruct Hin as [->|Hin].
  - exists [], l. split; [reflexivity|].
    rewrite N.eqb_refl. cbn.
    apply forallb_filter_id. apply forallb_forall. intros y Hy.
    apply negb_true_iff, N.eqb_neq. intros E. apply Hx. rewrite <- E.
    now apply in_map.
  - destruct (IH Hnd' Hin) as (l1 & l2 & -> & E).
    exists (x :: l1), l2. split; [reflexivity|].
    assert (Hne : N.eqb (rid x) (rid req) = false).
    { apply N.eqb_neq. intros Heq. apply Hx. rewrite Heq.
      apply in_map, in_or_app. right. now left. }
    rewrite Hne. cbn. now rewrite E.
Qed.

(** ** What the store operations do to the tables *)

Lemma uid_setRow (id : string) (e : R) (p : Elo) : uid (setRow id e p) = uid p.
Proof. unfold setRow. now destruct (String.eqb (uid p) id). Qed.

Lemma name_setRow (id : string) (e : R) (p : Elo) : name (setRow id e p) = name p.
Proof. unfold setRow. now destruct (String.eqb (uid p) id). Qed.

Lemma setRow_other (id : string) (e : R) (p : Elo) :
  uid p <> id -> setRow id e p = p.
Proof.
  intros H. unfold setRow. apply String.eqb_neq in H. now rewrite H.
Qed.

Lemma setRow_same (id : string) (e : R) (p : Elo) :
  uid p = id -> setRow id e p = withElo p e.
Proof.
  intros H. unfold setRow. apply String.eqb_eq in H. now rewrite H.
Qed.

Lemma findElo_createElo (id : string) (row : Elo) (db : Database) :
  findElo id db <> None -> findElo id (snd (createElo row db)) <> None.
Proof.
  unfold findElo, getElo, createElo. cbn.
  destruct (existsb _ (w_elo db)); cbn; [trivial|].
  rewrite filter_app. now destruct (filter _ (w_elo db)).
Qed.

Lemma acceptRequest_db (selfId oppoId : string) (self oppo : Elo)
      (req : EloRequest) (db : Database) :
  snd (acceptRequest selfId oppoId self oppo req db)
  = {| w_elo := map (setRow oppoId (elo oppo + srcDeltaElo req))
                  (map (setRow selfId (elo self + destDeltaElo req)) (w_elo db));
       w_elo_request :=
         filter (fun r => negb (N.eqb (rid r) (rid req))) (w_elo_request db);
       autoInc := autoInc db |}.
Proof. reflexivity. Qed.

Lemma findElo_acceptRequest (id selfId oppoId : string) (self oppo : Elo)
      (req : EloRequest) (db : Database) :
  findElo id (snd (acceptRequest selfId oppoId self oppo req db))
  = option_map (fun p => setRow oppoId (elo oppo + srcDeltaElo req)
                           (setRow selfId (elo self + destDeltaElo req) p))
               (findElo id db).
Proof.
  rewrite acceptRequest_db. unfold findElo, getElo. cbn.
  rewrite !filter_map_commute by (intros x; now rewrite uid_setRow).
  now destruct (filter _ (w_elo db)).
Qed.

Lemma findRequest_In (s d : string) (db : Database) (req : EloRequest) :
  findRequest s d db = Some req ->
  In req (w_elo_request db) /\ src req = s /\ dest req = d.
Proof.
  unfold findRequest, getRequest. cbn. intros H.
  apply hd_error_cons in H. destruct H as [l' H].
  assert (Hin : In req (filter (fun r => String.eqb (src r) s && String.eqb (dest r) d)
                               (w_elo_request db))) by (rewrite H; now left).
  apply filter_In in Hin. destruct Hin as [Hin Hb].
  apply andb_true_iff in Hb. destruct Hb as [Hs Hd].
  apply String.eqb_eq in Hs, Hd. auto.
Qed.

Lemma findRequest_None (s d : string) (db : Database) :
  findRequest s d db = None <->
  forall r, In r (w_elo_request db) -> ~ (src r = s /\ dest r = d).
Proof.
  unfold findRequest, getRequest. cbn. split.
  - intros H r Hin [Hs Hd]. apply hd_error_nil in H.
    rewrite filter_nil_iff in H. specialize (H r Hin).
    subst. now rewrite !String.eqb_refl in H.
  - intros H.
    assert (E : filter (fun r => String.eqb (src r) s && String.eqb (dest r) d)
                       (w_elo_request db) = []).
    { apply filter_nil_iff. intros r Hin.
      destruct (String.eqb_spec (src r) s), (String.eqb_spec (dest r) d);
        try reflexivity.
      exfalso. now apply (H r Hin). }
    now rewrite E.
Qed.

Lemma between_cases (a b : string) (r : EloRequest) :
  between a b r = true <->
  (src r = a /\ dest r = b) \/ (src r = b /\ dest r = a).
Proof.
  unfold between. rewrite orb_true_iff, !andb_true_iff, !String.eqb_eq. tauto.
Qed.

(** The first lookup fails: the caller is not registered. *)
Lemma elo_update_unregistered (config : Config) (selfId oppoId : string)
      (win : option bool) (db : Database) :
  findElo selfId db = None ->
  elo_update config selfId oppoId win db = (elo_need_register, db).
Proof.
  unfold findElo, getElo. cbn. intros H. apply hd_error_nil in H.
  unfold elo_update, bind, getElo. cbn. now rewrite H.
Qed.

(** The second lookup fails: the opponent is not registered. *)
Lemma elo_update_unknown (config : Config) (selfId oppoId : string)
      (win : option bool) (db : Database) (self : Elo) :
  findElo selfId db = Some self -> findElo oppoId db = None ->
  elo_update config selfId oppoId win db = (elo_user_not_found oppoId, db).
Proof.
  unfold findElo, getElo. cbn. intros Hs Ho.
  apply hd_error_cons in Hs. destruct Hs as [ss Hs]. apply hd_error_nil in Ho.
  unfold elo_update, bind, getElo. cbn. now rewrite Hs, Ho.
Qed.

(** ** The invariant holds in every database the plugin builds *)

(** Taking rows out of [w-elo-request] keeps the [rid]s pairwise different. *)
Lemma rids_unique_filter (keep : EloRequest -> bool) (reqs : list EloRequest) :
  NoDup (map rid reqs) -> NoDup (map rid (filter keep reqs)).
Proof.
  induction reqs as [|r reqs IH]; cbn; [trivial|].
  intros H. apply NoDup_cons_iff in H. destruct H as [Hr Hrest].
  destruct (keep r); cbn; [|now apply IH].
  apply NoDup_cons_iff. split; [|now apply IH].
  intros Hin. apply Hr. apply in_map_iff in Hin.
  destruct Hin as (y & Hy & Hin). apply filter_In in Hin.
  rewrite <- Hy. apply in_map. tauto.
Qed.

Lemma option_map_not_None {A B : Type} (f : A -> B) (o : option A) :
  o <> None -> option_map f o <> None.
Proof. now destruct o. Qed.

Lemma Invariant_empty : Invariant emptyDatabase.
Proof.
  split; cbn.
  - constructor.
  - constructor.
  - constructor.
  - intros a b. cbn. lia.
Qed.

Lemma Invariant_createElo (row : Elo) (db : Database) :
  Invariant db -> Invariant (snd (createElo row db)).
Proof.
  intros [Hf Hr Hreg Hp].
  assert (Hreqs : w_elo_request (snd (createElo row db)) = w_elo_request db).
  { unfold createElo. now destruct (existsb _ (w_elo db)). }
  assert (Hinc : autoInc (snd (createElo row db)) = autoInc db).
  { unfold createElo. now destruct (existsb _ (w_elo db)). }
  split.
  - now rewrite Hreqs, Hinc.
  - now rewrite Hreqs.
  - rewrite Hreqs. eapply Forall_impl; [|exact Hreg].
    intros r [H1 H2]. split; now apply findElo_createElo.
  - intros a b. unfold pendingBetween. rewrite Hreqs. apply Hp.
Qed.

Lemma elo_register_db (config : Config) (u n : string) (db : Database) :
  snd (elo_register config u n db) = db
  \/ exists row, snd (elo_register config u n db) = snd (createElo row db).
Proof.
  unfold elo_register, bind, getElo. cbn.
  destruct (truthy (trim n)); cbn; [|now left].
  destruct (filter _ (w_elo db)); cbn; [|now left].
  right. eexists.
  destruct (createElo _ db) as [[|] db'] eqn:E; cbn; now rewrite E.
Qed.

Lemma elo_check_db (u : string) (t : option string) (db : Database) :
  snd (elo_check_cmd u t db) = db.
Proof.
  unfold elo_check_cmd, bind, getElo. cbn.
  destruct (filter _ (w_elo db)); cbn; [|reflexivity].
  now destruct (match t with Some s => truthy s | None => false end).
Qed.

Lemma Invariant_accept (selfId oppoId : string) (self oppo : Elo)
      (req : EloRequest) (db : Database) :
  Invariant db -> Invariant (snd (acceptRequest selfId oppoId self oppo req db)).
Proof.
  intros [Hf Hr Hreg Hp]. split.
  - rewrite acceptRequest_db. cbn.
    apply Forall_forall. intros r Hin. apply filter_In in Hin.
    rewrite Forall_forall in Hf. now apply Hf.
  - rewrite acceptRequest_db. cbn. now apply rids_unique_filter.
  - apply Forall_forall. intros r Hin.
    rewrite acceptRequest_db in Hin. cbn in Hin. apply filter_In in Hin.
    rewrite Forall_forall in Hreg. destruct (Hreg r (proj1 Hin)) as [H1 H2].
    rewrite !findElo_acceptRequest. split; now apply option_map_not_None.
  - intros a b. unfold pendingBetween. rewrite acceptRequest_db. cbn.
    eapply Nat.le_trans; [apply filter_filter_length|apply Hp].
Qed.

Lemma pendingBetween_nil (s d : string) (db : Database) :
  findRequest s d db = None -> findRequest d s db = None ->
  pendingBetween s d db = [].
Proof.
  intros H1 H2. unfold pendingBetween. apply filter_nil_iff. intros r Hin.
  rewrite findRequest_None in H1, H2.
  destruct (between s d r) eqn:E; [|reflexivity].
  apply between_cases in E. destruct E as [E|E].
  - now destruct (H1 r Hin).
  - now destruct (H2 r Hin).
Qed.

Lemma between_same_pair (a b : string) (r : EloRequest) :
  between a b r = true ->
  forall x, between a b x = between (src r) (dest r) x.
Proof.
  intros H x. apply between_cases in H.
  unfold between. destruct H as [[<- <-]|[<- <-]]; [reflexivity|apply orb_comm].
Qed.

Lemma Invariant_propose (s d : string) (st : EloStatus) (sd dd : R)
      (db : Database) :
  Invariant db ->
  findElo s db <> None -> findElo d db <> None ->
  findRequest d s db = None -> findRequest s d db = None ->
  Invariant (snd (createRequest s d st sd dd db)).
Proof.
  intros [Hf Hr Hreg Hp] Hs Hd Hrev Hdup. split; cbn.
  - apply Forall_app. split.
    + eapply Forall_impl; [|exact Hf]. intros r Hlt. cbn in Hlt. lia.
    + constructor; [cbn; lia|constructor].
  - rewrite map_app. cbn. apply NoDup_app; [assumption| |].
    + constructor; [intros []|constructor].
    + intros n Hin [<-|[]]. apply in_map_iff in Hin.
      destruct Hin as (r & Hn & Hin). rewrite Forall_forall in Hf.
      specialize (Hf r Hin). cbn in Hf. lia.
  - apply Forall_app. split.
    + eapply Forall_impl; [|exact Hreg]. intros r H. exact H.
    + constructor; [|constructor]. cbn. split; assumption.
  - intros a b. unfold pendingBetween. cbn. rewrite filter_app. cbn.
    destruct (between a b _) eqn:E.
    + rewrite (filter_ext _ _ (between_same_pair a b _ E)). cbn [src dest].
      fold (pendingBetween s d db). rewrite pendingBetween_nil by assumption.
      cbn. lia.
    + rewrite app_nil_r. apply Hp.
Qed.

(** The database after [elo.update]: untouched, or after a confirmation,
    or after a proposal. *)
Lemma elo_update_cases (config : Config) (selfId oppoId : string)
      (win : option bool) (db : Database) :
  snd (elo_update config selfId oppoId win db) = db
  \/ (exists self oppo req,
        findElo selfId db = Some self /\ findElo oppoId db = Some oppo
        /\ findRequest oppoId selfId db = Some req
        /\ elo_update config selfId oppoId win db
           = acceptRequest selfId oppoId self oppo req db)
  \/ (exists self oppo,
        findElo selfId db = Some self /\ findElo oppoId db = Some oppo
        /\ findRequest oppoId selfId db = None
        /\ findRequest selfId oppoId db = None
        /\ elo_update config selfId oppoId win db
           = (elo_update_request_ok (name self) (name oppo) (declaredStatus win),
              snd (createRequest selfId oppoId (declaredStatus win)
                     (selfDeltaElo config (declaredStatus win) (elo self) (elo oppo))
                     (oppoDeltaElo config (declaredStatus win) (elo self) (elo oppo))
                     db))).
Proof.
  destruct (findElo selfId db) as [self|] eqn:Hs.
  2:{ left. now rewrite elo_update_unregistered. }
  destruct (findElo oppoId db) as [oppo|] eqn:Ho.
  2:{ left. now rewrite (elo_update_unknown _ _ _ _ _ self). }
  destruct (findRequest oppoId selfId db) as [req|] eqn:Hr.
  { right. left. exists self, oppo, req. repeat split.
    now apply elo_update_accept. }
  destruct (findRequest selfId oppoId db) as [dup|] eqn:Hd.
  { left. now rewrite (elo_update_duplicate _ _ _ _ _ self oppo Hs Ho dup). }
  right. right. exists self, oppo. repeat split.
  now apply elo_update_propose.
Qed.

Lemma Invariant_handle (config : Config) (c : Command) (db : Database) :
  Invariant db -> Invariant (snd (handle config c db)).
Proof.
  intros Hinv. destruct c as [u n|u t|u o w]; cbn [handle].
  - destruct (elo_register_db config u n db) as [->|[row ->]];
      [assumption|now apply Invariant_createElo].
  - now rewrite elo_check_db.
  - destruct (elo_update_cases config u o w db)
      as [->|[(self & oppo & req & Hs & Ho & Hr & ->)
             |(self & oppo & Hs & Ho & Hr & Hd & ->)]].
    + assumption.
    + now apply Invariant_accept.
    + cbn [snd]. apply Invariant_propose; try assumption; congruence.
Qed.

Lemma Invariant_exec (config : Config) (cs : list Command) (db : Database) :
  Invariant db -> Invariant (exec config cs db).
Proof.
  revert db. induction cs as [|c cs IH]; intros db Hinv; cbn; [assumption|].
  apply IH. now apply Invariant_handle.
Qed.

Lemma reachable_Invariant (config : Config) (db : Database) :
  reachable config db -> Invariant db.
Proof. intros [cs ->]. apply Invariant_exec, Invariant_empty. Qed.

Lemma exec_app (config : Config) (cs cs' : list Command) (db : Database) :
  exec config (cs ++ cs') db = exec config cs' (exec config cs db).
Proof. revert db. induction cs as [|c cs IH]; intros db; cbn; [reflexivity|apply IH]. Qed.

Lemma reachable_exec (config : Config) (cs : list Command) (db : Database) :
  reachable config db -> reachable config (exec config cs db).
Proof. intros [cs0 ->]. exists (cs0 ++ cs). now rewrite exec_app. Qed.

(** ** Confirmation *)

Lemma findElo_In (id : string) (db : Database) (p : Elo) :
  findElo id db = Some p -> In p (w_elo db) /\ uid p = id.
Proof.
  unfold findElo, getElo. cbn. intros H.
  apply hd_error_cons in H. destruct H as [l' H].
  assert (Hin : In p (filter (fun q => String.eqb (uid q) id) (w_elo db)))
    by (rewrite H; now left).
  apply filter_In in Hin. destruct Hin as [Hin Hb].
  apply String.eqb_eq in Hb. auto.
Qed.

Lemma setRow_twice_opponent (selfId oppoId : string) (e1 e2 : R) (oppo : Elo) :
  uid oppo = oppoId ->
  setRow oppoId e2 (setRow selfId e1 oppo) = withElo oppo e2.
Proof.
  intros Hu. rewrite setRow_same by (now rewrite uid_setRow).
  unfold withElo. now rewrite uid_setRow, name_setRow.
Qed.

Lemma setRow_twice_caller (selfId oppoId : string) (e1 e2 : R) (self : Elo) :
  uid self = selfId -> selfId <> oppoId ->
  setRow oppoId e2 (setRow selfId e1 self) = withElo self e1.
Proof.
  intros Hu Hne. rewrite (setRow_same selfId) by assumption.
  apply setRow_other. cbn. congruence.
Qed.

(** C1. A call of [elo.update] that finds a pending request with
    [src = oppoId] and [dest = selfId] is a confirmation: the caller's new
    rating is its current rating plus the stored [destDeltaElo], the
    opponent's new rating is its current rating plus the stored
    [srcDeltaElo]; both ratings are written to the table [w-elo] (caller
    first, then opponent), where they are read back afterwards, and the
    request is no longer in [w-elo-request]. *)
Theorem confirmation_commits (config : Config) (selfId oppoId : string)
        (win : option bool) (db : Database) (self oppo : Elo) (req : EloRequest) :
  findElo selfId db = Some self ->
  findElo oppoId db = Some oppo ->
  findRequest oppoId selfId db = Some req ->
  let selfNewElo := elo self + destDeltaElo req in
  let oppoNewElo := elo oppo + srcDeltaElo req in
  let after := snd (elo_update config selfId oppoId win db) in
  fst (elo_update config selfId oppoId win db)
  = elo_update_accept_ok (name self) (name oppo)
      (showElo selfNewElo) (showDeltaElo (destDeltaElo req))
      (showElo oppoNewElo) (showDeltaElo (srcDeltaElo req))
      (flipStatus (status req))
  /\ w_elo after
     = w_elo (snd (setElo oppoId oppoNewElo (snd (setElo selfId selfNewElo db))))
  /\ findElo oppoId after = Some (withElo oppo oppoNewElo)
  /\ (selfId <> oppoId -> findElo selfId after = Some (withElo self selfNewElo))
  /\ ~ In req (w_elo_request after)
  /\ w_elo_request after
     = filter (fun r => negb (N.eqb (rid r) (rid req))) (w_elo_request db).
Proof.
  intros Hs Ho Hr selfNewElo oppoNewElo after.
  subst after. rewrite (elo_update_accept config _ _ win db self oppo Hs Ho req Hr).
  repeat split.
  - rewrite findElo_acceptRequest, Ho. cbn.
    f_equal. apply setRow_twice_opponent. now apply findElo_In in Ho.
  - intros Hne. rewrite findElo_acceptRequest, Hs. cbn.
    f_equal. apply setRow_twice_caller; [|assumption]. now apply findElo_In in Hs.
  - rewrite acceptRequest_db. cbn. intros Hin. apply filter_In in Hin.
    destruct Hin as [_ Hb]. now rewrite N.eqb_refl in Hb.
Qed.

Lemma confirmation_commits_witness :
  fst (elo_update defaultConfig "B" "A" None proposedDb)
  = elo_update_accept_ok "bob" "alice"
      (showElo (400 + oppoDeltaElo defaultConfig Win 400 400))
      (showDeltaElo (oppoDeltaElo defaultConfig Win 400 400))
      (showElo (400 + selfDeltaElo defaultConfig Win 400 400))
      (showDeltaElo (selfDeltaElo defaultConfig Win 400 400))
      Lose
  /\ findElo "A" confirmedDb
     = Some {| uid := "A"; name := "alice";
               elo := 400 + selfDeltaElo defaultConfig Win 400 400 |}
  /\ findElo "B" confirmedDb
     = Some {| uid := "B"; name := "bob";
               elo := 400 + oppoDeltaElo defaultConfig Win 400 400 |}
  /\ ~ In proposedRequest (w_elo_request confirmedDb).
Proof.
  destruct (confirmation_commits defaultConfig "B" "A" None proposedDb
              {| uid := "B"; name := "bob"; elo := 400 |}
              {| uid := "A"; name := "alice"; elo := 400 |}
              proposedRequest eq_refl eq_refl eq_refl)
    as (Hreply & _ & Ha & Hb & Hgone & _).
  split; [exact Hreply|]. split; [exact Ha|]. split; [|exact Hgone].
  apply Hb. discriminate.
Defined.

(** C10. A confirmation changes nothing but the ratings of the two
    participants and the one request it matched: every row of [w-elo] keeps
    its [uid] and [name], the rows of other players are the same rows, and
    [w-elo-request] is the old table with the matched request taken out. *)
Theorem confirmation_frame (config : Config) (selfId oppoId : string)
        (win : option bool) (db : Database) (self oppo : Elo) (req : EloRequest) :
  reachable config db ->
  findElo selfId db = Some self ->
  findElo oppoId db = Some oppo ->
  findRequest oppoId selfId db = Some req ->
  let after := snd (elo_update config selfId oppoId win db) in
  (exists f : Elo -> Elo,
      w_elo after = map f (w_elo db)
      /\ forall p, uid (f p) = uid p /\ name (f p) = name p
                   /\ (uid p <> selfId -> uid p <> oppoId -> f p = p))
  /\ (forall id, id <> selfId -> id <> oppoId -> findElo id after = findElo id db)
  /\ (exists l1 l2, w_elo_request db = l1 ++ req :: l2
                    /\ w_elo_request after = l1 ++ l2)
  /\ autoInc after = autoInc db.
Proof.
  intros Hreach Hs Ho Hr after. subst after.
  rewrite (elo_update_accept config _ _ win db self oppo Hs Ho req Hr).
  split; [|split; [|split]].
  - exists (fun p => setRow oppoId (elo oppo + srcDeltaElo req)
                       (setRow selfId (elo self + destDeltaElo req) p)).
    split.
    + rewrite acceptRequest_db. cbn. now rewrite map_map.
    + intros p. rewrite !uid_setRow, !name_setRow. repeat split.
      intros H1 H2. rewrite (setRow_other selfId) by assumption.
      now apply setRow_other.
  - intros id H1 H2. rewrite findElo_acceptRequest.
    destruct (findElo id db) as [p|] eqn:Hp; [|reflexivity]. cbn.
    apply findElo_In in Hp. destruct Hp as [_ Hu].
    rewrite (setRow_other selfId) by congruence.
    now rewrite setRow_other by congruence.
  - apply reachable_Invariant in Hreach. destruct Hreach as [_ Hrids _ _].
    apply findRequest_In in Hr. destruct Hr as [Hin _].
    destruct (remove_unique_rid _ _ Hrids Hin) as (l1 & l2 & E1 & E2).
    exists l1, l2. split; [assumption|]. now rewrite acceptRequest_db.
  - now rewrite acceptRequest_db.
Qed.

Lemma confirmation_frame_witness :
  (forall id, id <> "B" -> id <> "A" ->
              findElo id confirmedDb = findElo id proposedDb)
  /\ (exists l1 l2, w_elo_request proposedDb = l1 ++ proposedRequest :: l2
                    /\ w_elo_request confirmedDb = l1 ++ l2).
Proof.
  assert (Hreach : reachable defaultConfig proposedDb)
    by (exists (twoPlayers ++ [Update "A" "B" (Some true)]); reflexivity).
  destruct (confirmation_frame defaultConfig "B" "A" None proposedDb
              {| uid := "B"; name := "bob"; elo := 400 |}
              {| uid := "A"; name := "alice"; elo := 400 |}
              proposedRequest Hreach eq_refl eq_refl eq_refl)
    as (_ & Hothers & Hreqs & _).
  split; assumption.
Defined.

(** ** The invariant of pending requests *)



(** ** The Elo formula *)

(** The constants of the source are the quantities of the specification,
    with the configured initial rating as the scale [S]. *)
Lemma selfDeltaElo_spec (config : Config) (st : EloStatus) (r1 r2 : R) :
  selfDeltaElo config st r1 r2
  = EloSpec.callerDelta (initialElo config) (k config) r1 r2 (outcomeOf st).
Proof. now destruct st. Qed.

Lemma oppoDeltaElo_spec (config : Config) (st : EloStatus) (r1 r2 : R) :
  oppoDeltaElo config st r1 r2
  = EloSpec.opponentDelta (initialElo config) (k config) r1 r2 (outcomeOf st).
Proof.
  unfold oppoDeltaElo, EloSpec.opponentDelta. f_equal.
  destruct st; reflexivity.
Qed.

(** ** Proposal *)

(** C2. A call of [elo.update] by a registered caller against a registered
    opponent, with no request pending between them in either direction, is
    a new proposal: it appends one request from the caller to the opponent
    whose deltas are those of the Elo formula of the specification, with
    [S] the configured initial rating and [K] the configured K factor:
    [callerDelta = K * (actualCaller - expectedCaller)] and
    [opponentDelta = K * ((1 - actualCaller) - expectedOpponent)], where
    [actualCaller] is 1 when the caller declares a win ([-w]) and 0 when it
    declares a loss ([-l], or no flag at all). *)
Theorem proposal_stores_elo_deltas (config : Config) (selfId oppoId : string)
        (win : option bool) (db : Database) (self oppo : Elo) :
  findElo selfId db = Some self ->
  findElo oppoId db = Some oppo ->
  findRequest oppoId selfId db = None ->
  findRequest selfId oppoId db = None ->
  let S := initialElo config in
  let K := k config in
  let declaresWin := match win with Some true => true | _ => false end in
  let actualCaller := if declaresWin then 1 else 0 in
  let expectedCaller := 1 / (1 + Rpower 10 ((elo oppo - elo self) / S)) in
  let expectedOpponent := 1 / (1 + Rpower 10 (- (elo oppo - elo self) / S)) in
  let outcome := if declaresWin then EloSpec.DeclaredWin else EloSpec.DeclaredLose in
  fst (elo_update config selfId oppoId win db)
  = elo_update_request_ok (name self) (name oppo)
      (if declaresWin then Win else Lose)
  /\ exists r,
       w_elo_request (snd (elo_update config selfId oppoId win db))
       = w_elo_request db ++ [r]
       /\ src r = selfId /\ dest r = oppoId
       /\ status r = (if declaresWin then Win else Lose)
       /\ srcDeltaElo r = K * (actualCaller - expectedCaller)
       /\ destDeltaElo r = K * ((1 - actualCaller) - expectedOpponent)
       /\ srcDeltaElo r = EloSpec.callerDelta S K (elo self) (elo oppo) outcome
       /\ destDeltaElo r = EloSpec.opponentDelta S K (elo self) (elo oppo) outcome.
Proof.
  intros Hs Ho Hr Hd S K declaresWin actualCaller expectedCaller expectedOpponent
         outcome.
  rewrite (elo_update_propose config _ _ win db self oppo Hs Ho Hr Hd).
  subst declaresWin actualCaller outcome.
  destruct win as [[|]|]; cbn [declaredStatus fst snd];
    (split; [reflexivity|]; eexists; split; [reflexivity|]; cbn;
     repeat split; reflexivity).
Qed.

Lemma proposal_stores_elo_deltas_witness :
  (exists r,
      w_elo_request (snd (elo_update defaultConfig "B" "A" (Some false) confirmedDb))
      = [r]
      /\ src r = "B" /\ dest r = "A" /\ status r = Lose
      /\ srcDeltaElo r
         = 32 * (0 - 1 / (1 + Rpower 10
                   (((400 + selfDeltaElo defaultConfig Win 400 400)
                     - (400 + oppoDeltaElo defaultConfig Win 400 400)) / 400)))
      /\ destDeltaElo r
         = 32 * ((1 - 0) - 1 / (1 + Rpower 10
                   (- ((400 + selfDeltaElo defaultConfig Win 400 400)
                       - (400 + oppoDeltaElo defaultConfig Win 400 400)) / 400))))
  /\ (exists r,
        w_elo_request proposedDb = [r]
        /\ src r = "A" /\ dest r = "B" /\ status r = Win
        /\ srcDeltaElo r = 32 * (1 - 1 / (1 + Rpower 10 ((400 - 400) / 400)))
        /\ destDeltaElo r
           = 32 * ((1 - 1) - 1 / (1 + Rpower 10 (- (400 - 400) / 400)))).
Proof.
  split.
  - destruct (proposal_stores_elo_deltas defaultConfig "B" "A" (Some false)
                confirmedDb
                {| uid := "B"; name := "bob";
                   elo := 400 + oppoDeltaElo defaultConfig Win 400 400 |}
                {| uid := "A"; name := "alice";
                   elo := 400 + selfDeltaElo defaultConfig Win 400 400 |}
                eq_refl eq_refl eq_refl eq_refl)
      as (_ & r & H1 & H2 & H3 & H4 & H5 & H6 & _).
    exists r. repeat split; assumption.
  - destruct (proposal_stores_elo_deltas defaultConfig "A" "B" (Some true)
                (exec defaultConfig twoPlayers emptyDatabase)
                {| uid := "A"; name := "alice"; elo := 400 |}
                {| uid := "B"; name := "bob"; elo := 400 |}
                eq_refl eq_refl eq_refl eq_refl)
      as (_ & r & H1 & H2 & H3 & H4 & H5 & H6 & _).
    exists r. repeat split; assumption.
Defined.

(** ** Repeated calls *)

Lemma filter_le1_unique {A : Type} (p : A -> bool) (l : list A) (x y : A) :
  (List.length (filter p l) <= 1)%nat ->
  In x l -> p x = true -> In y l -> p y = true -> x = y.
Proof.
  intros Hlen Hx Px Hy Py.
  assert (Hx' : In x (filter p l)) by (apply filter_In; auto).
  assert (Hy' : In y (filter p l)) by (apply filter_In; auto).
  destruct (filter p l) as [|z [|z' l']]; cbn in *.
  - contradiction.
  - destruct Hx' as [<-|[]], Hy' as [<-|[]]. reflexivity.
  - lia.
Qed.

Lemma filter_le1_singleton {A : Type} (p : A -> bool) (l : list A) (x : A) :
  (List.length (filter p l) <= 1)%nat ->
  In x l -> p x = true -> filter p l = [x].
Proof.
  intros Hlen Hx Px.
  assert (Hx' : In x (filter p l)) by (apply filter_In; auto).
  destruct (filter p l) as [|z [|z' l']]; cbn in *.
  - contradiction.
  - now destruct Hx' as [<-|[]].
  - lia.
Qed.

(** The ends of a pending request are registered players. *)
Lemma pending_registered (db : Database) (s d : string) (req : EloRequest) :
  Invariant db -> findRequest s d db = Some req ->
  exists ps pd, findElo s db = Some ps /\ findElo d db = Some pd.
Proof.
  intros [_ _ Hreg _] Hr. apply findRequest_In in Hr.
  destruct Hr as (Hin & <- & <-).
  rewrite Forall_forall in Hreg. destruct (Hreg req Hin) as [H1 H2].
  destruct (findElo (src req) db) as [ps|]; [|contradiction].
  destruct (findElo (dest req) db) as [pd|]; [|contradiction].
  now exists ps, pd.
Qed.

(** Once the request between [s] and [d] is confirmed, nothing is pending
    between them. *)
Lemma nothing_pending_after_accept (db : Database) (s d : string)
      (self oppo : Elo) (req : EloRequest) (x y : string) :
  Invariant db -> findRequest s d db = Some req ->
  (x = s /\ y = d) \/ (x = d /\ y = s) ->
  findRequest x y (snd (acceptRequest d s self oppo req db)) = None.
Proof.
  intros [_ _ _ Hp] Hr Hxy. apply findRequest_In in Hr.
  destruct Hr as (Hin & Hs & Hd).
  apply findRequest_None. intros r Hr [Hx Hy].
  rewrite acceptRequest_db in Hr. cbn in Hr. apply filter_In in Hr.
  destruct Hr as [Hr Hne].
  assert (E : r = req).
  { apply (filter_le1_unique (between s d) (w_elo_request db)).
    - apply Hp.
    - assumption.
    - apply between_cases. destruct Hxy as [[-> ->]|[-> ->]]; auto.
    - assumption.
    - apply between_cases. auto. }
  subst r. now rewrite N.eqb_refl in Hne.
Qed.

(** C4, as the code has it.  After B has confirmed the request that A
    proposed against B, the same call by B once more finds nothing pending
    between the two and is taken as a new proposal from B against A: the
    reply is [elo-update-request-ok], no error, one request with
    [src = B] and [dest = A] is appended, and no rating changes. *)
Theorem second_confirmation_proposes (config : Config) (a b : string)
        (win : option bool) (db : Database) (req : EloRequest) :
  reachable config db ->
  findRequest a b db = Some req ->
  let confirmed := snd (elo_update config b a win db) in
  let again := elo_update config b a win confirmed in
  exists pb pa,
    findElo b confirmed = Some pb /\ findElo a confirmed = Some pa
    /\ fst again = elo_update_request_ok (name pb) (name pa) (declaredStatus win)
    /\ challengeError (fst again) = None
    /\ w_elo (snd again) = w_elo confirmed
    /\ exists r, w_elo_request (snd again) = w_elo_request confirmed ++ [r]
                 /\ src r = b /\ dest r = a.
Proof.
  intros Hreach Hr confirmed again.
  apply reachable_Invariant in Hreach.
  destruct (pending_registered db a b req Hreach Hr) as (pa & pb & Ha & Hb).
  assert (Hacc := elo_update_accept config b a win db pb pa Hb Ha req Hr).
  assert (Hb' : findElo b confirmed <> None).
  { subst confirmed. rewrite Hacc, findElo_acceptRequest, Hb. discriminate. }
  assert (Ha' : findElo a confirmed <> None).
  { subst confirmed. rewrite Hacc, findElo_acceptRequest, Ha. discriminate. }
  destruct (findElo b confirmed) as [qb|] eqn:Eb; [|contradiction].
  destruct (findElo a confirmed) as [qa|] eqn:Ea; [|contradiction].
  assert (H1 : findRequest a b confirmed = None).
  { subst confirmed. rewrite Hacc.
    apply (nothing_pending_after_accept db a b); auto. }
  assert (H2 : findRequest b a confirmed = None).
  { subst confirmed. rewrite Hacc.
    apply (nothing_pending_after_accept db a b); auto. }
  exists qb, qa. subst again.
  rewrite (elo_update_propose config _ _ win confirmed qb qa Eb Ea H1 H2).
  repeat split. eexists. repeat split.
Qed.

Lemma second_confirmation_proposes_witness :
  exists pb pa,
    findElo "B" confirmedDb = Some pb /\ findElo "A" confirmedDb = Some pa
    /\ fst (elo_update defaultConfig "B" "A" None confirmedDb)
       = elo_update_request_ok (name pb) (name pa) Lose
    /\ challengeError (fst (elo_update defaultConfig "B" "A" None confirmedDb))
       = None
    /\ w_elo (snd (elo_update defaultConfig "B" "A" None confirmedDb))
       = w_elo confirmedDb
    /\ exists r,
         w_elo_request (snd (elo_update defaultConfig "B" "A" None confirmedDb))
         = w_elo_request confirmedDb ++ [r]
         /\ src r = "B" /\ dest r = "A".
Proof.
  apply (second_confirmation_proposes defaultConfig "A" "B" None proposedDb
           proposedRequest).
  - exists (twoPlayers ++ [Update "A" "B" (Some true)]). reflexivity.
  - reflexivity.
Defined.

(** C4 fails as stated: A proposes against B, B confirms, and B repeats the
    call.  The second call is not answered with [NothingPending]; it is
    answered with [elo-update-request-ok] and leaves a new pending request
    from B against A. *)
Lemma second_confirmation_not_NothingPending :
  w_elo_request confirmedDb = []
  /\ fst (elo_update defaultConfig "B" "A" None confirmedDb)
     = elo_update_request_ok "bob" "alice" Lose
  /\ challengeError (fst (elo_update defaultConfig "B" "A" None confirmedDb))
     <> Some NothingPending
  /\ List.length
       (w_elo_request (snd (elo_update defaultConfig "B" "A" None confirmedDb)))
     = 1%nat.
Proof.
  split; [reflexivity|]. split; [reflexivity|]. split; [discriminate|reflexivity].
Qed.

(** C6, as the code has it.  When a request from the caller against a
    different player is pending, the caller's next [elo.update] against
    that player is answered with [elo-update-request-duplicate]
    (DuplicateChallenge), the database is left as it was, and that request
    is the only one pending between the two. *)
Theorem duplicate_proposal_rejected (config : Config) (selfId oppoId : string)
        (win : option bool) (db : Database) (req : EloRequest) :
  reachable config db ->
  selfId <> oppoId ->
  findRequest selfId oppoId db = Some req ->
  exists self oppo,
    findElo selfId db = Some self /\ findElo oppoId db = Some oppo
    /\ elo_update config selfId oppoId win db
       = (elo_update_request_duplicate (name self) (name oppo), db)
    /\ challengeError (fst (elo_update config selfId oppoId win db))
       = Some DuplicateChallenge
    /\ pendingBetween selfId oppoId db = [req].
Proof.
  intros Hreach Hne Hr.
  apply reachable_Invariant in Hreach.
  destruct (pending_registered db selfId oppoId req Hreach Hr)
    as (self & oppo & Hs & Ho).
  destruct (findRequest_In _ _ _ _ Hr) as (Hin & Hsrc & Hdest).
  assert (Hbetween : between selfId oppoId req = true)
    by (apply between_cases; auto).
  assert (Hrev : findRequest oppoId selfId db = None).
  { apply findRequest_None. intros r Hrin [H1 H2].
    assert (E : r = req).
    { apply (filter_le1_unique (between selfId oppoId) (w_elo_request db));
        try assumption; [apply Hreach|apply between_cases; auto]. }
    subst r. congruence. }
  exists self, oppo.
  rewrite (elo_update_duplicate config _ _ win db self oppo Hs Ho req Hrev Hr).
  repeat split; try assumption.
  apply filter_le1_singleton; try assumption. apply Hreach.
Qed.

Lemma duplicate_proposal_rejected_witness :
  exists self oppo,
    findElo "A" proposedDb = Some self /\ findElo "B" proposedDb = Some oppo
    /\ elo_update defaultConfig "A" "B" (Some true) proposedDb
       = (elo_update_request_duplicate (name self) (name oppo), proposedDb)
    /\ challengeError (fst (elo_update defaultConfig "A" "B" (Some true) proposedDb))
       = Some DuplicateChallenge
    /\ pendingBetween "A" "B" proposedDb = [proposedRequest].
Proof.
  apply (duplicate_proposal_rejected defaultConfig "A" "B" (Some true) proposedDb
           proposedRequest).
  - exists (twoPlayers ++ [Update "A" "B" (Some true)]). reflexivity.
  - discriminate.
  - reflexivity.
Defined.

(** C6 fails as stated when the caller is its own opponent: A proposes
    against A, so a request with [src = A] and [dest = A] is pending, and
    A's next call against A is taken as the confirmation of that request.
    The reply is [elo-update-accept-ok], not DuplicateChallenge, and the
    request is removed, leaving none. *)
Lemma duplicate_self_proposal_confirms :
  findRequest "A" "A" selfProposedDb
  = Some {| rid := 1; src := "A"; dest := "A"; status := Win;
            srcDeltaElo := selfDeltaElo defaultConfig Win 400 400;
            destDeltaElo := oppoDeltaElo defaultConfig Win 400 400 |}
  /\ challengeError (fst (elo_update defaultConfig "A" "A" (Some true) selfProposedDb))
     <> Some DuplicateChallenge
  /\ (forall n m, fst (elo_update defaultConfig "A" "A" (Some true) selfProposedDb)
                  <> elo_update_request_duplicate n m)
  /\ pendingBetween "A" "A"
       (snd (elo_update defaultConfig "A" "A" (Some true) selfProposedDb)) = [].
Proof.
  split; [reflexivity|]. split; [discriminate|]. split; [|reflexivity].
  intros n m. discriminate.
Qed.

(** ** Registration *)

(** C7, as the code has it.  [elo.register] with a name that is not empty
    once trimmed, by an identity that has a row in [w-elo], is answered
    with [elo-register-duplicate] (AlreadyRegistered) carrying the stored
    name; nothing is written, so the row keeps its name and rating. *)
Theorem register_twice_rejected (config : Config) (id rawName : string)
        (db : Database) (self : Elo) :
  truthy (trim rawName) = true ->
  findElo id db = Some self ->
  elo_register config id rawName db = (elo_register_duplicate (name self), db)
  /\ registerError (fst (elo_register config id rawName db))
     = Some AlreadyRegistered
  /\ findElo id (snd (elo_register config id rawName db)) = Some self.
Proof.
  intros Hname Hs.
  assert (E : elo_register config id rawName db
              = (elo_register_duplicate (name self), db)).
  { unfold elo_register, bind. rewrite Hname. cbn.
    unfold findElo in Hs. cbn in Hs. apply hd_error_cons in Hs.
    destruct Hs as [l' ->]. reflexivity. }
  rewrite E. repeat split. assumption.
Qed.

Lemma register_twice_rejected_witness :
  elo_register defaultConfig "A" " bob " proposedDb
  = (elo_register_duplicate "alice", proposedDb)
  /\ registerError (fst (elo_register defaultConfig "A" " bob " proposedDb))
     = Some AlreadyRegistered
  /\ findElo "A" (snd (elo_register defaultConfig "A" " bob " proposedDb))
     = Some {| uid := "A"; name := "alice"; elo := 400 |}.
Proof.
  apply (register_twice_rejected defaultConfig "A" " bob " proposedDb
           {| uid := "A"; name := "alice"; elo := 400 |}).
  - reflexivity.
  - reflexivity.
Defined.

(** C7 fails as stated for a blank name: the name is checked before the
    table is read, so a registered identity that calls [elo.register] with
    only white space is answered with [elo-register-invalid-name], not with
    AlreadyRegistered. *)
Lemma register_twice_blank_name :
  findElo "A" proposedDb = Some {| uid := "A"; name := "alice"; elo := 400 |}
  /\ elo_register defaultConfig "A" "  " proposedDb
     = (elo_register_invalid_name, proposedDb)
  /\ registerError (fst (elo_register defaultConfig "A" "  " proposedDb))
     <> Some AlreadyRegistered.
Proof.
  split; [reflexivity|]. split; [reflexivity|]. discriminate.
Qed.

(** * Further properties of the code *)

(** ** The Elo formula (index.ts, lines 164-169) *)

Lemma pow10_nonneg (x : R) : 0 <= pow10 x.
Proof. unfold pow10, Rpower. left. apply exp_pos. Qed.

Lemma expected_range (x : R) : 0 <= 1 / (1 + pow10 x) <= 1.
Proof.
  pose proof (pow10_nonneg x) as Hx.
  assert (H1 : 0 < 1 + pow10 x) by lra.
  split.
  - left. apply Rdiv_lt_0_compat; lra.
  - apply Rmult_le_reg_r with (1 + pow10 x); [assumption|].
    unfold Rdiv. rewrite Rmult_assoc, Rinv_l by lra. lra.
Qed.

(** X1. One proposal never moves a rating by more than the K factor, and
    never against the declared outcome: with a K factor that is not
    negative, each delta lies between [- k] and [k]; for a declared win the
    caller's delta is not negative and the opponent's not positive, and
    for a declared loss the other way round. *)
Theorem delta_within_k (config : Config) (st : EloStatus) (r1 r2 : R) :
  initialElo config <> 0 ->
  0 <= k config ->
  - k config <= selfDeltaElo config st r1 r2 <= k config
  /\ - k config <= oppoDeltaElo config st r1 r2 <= k config
  /\ (st = Win -> 0 <= selfDeltaElo config st r1 r2
                  /\ oppoDeltaElo config st r1 r2 <= 0)
  /\ (st = Lose -> selfDeltaElo config st r1 r2 <= 0
                   /\ 0 <= oppoDeltaElo config st r1 r2).
Proof.
  intros _ HK. unfold selfDeltaElo, oppoDeltaElo, selfE, oppoE.
  pose proof (expected_range (diffElo r1 r2 / initialElo config)) as [H1 H2].
  pose proof (expected_range (- diffElo r1 r2 / initialElo config)) as [H3 H4].
  destruct st; cbn; repeat split; try discriminate; intros; nra.
Qed.

Lemma delta_within_k_witness :
  - 32 <= selfDeltaElo defaultConfig Win 400 1000 <= 32
  /\ 0 <= selfDeltaElo defaultConfig Win 400 1000
  /\ oppoDeltaElo defaultConfig Win 400 1000 <= 0.
Proof.
  destruct (delta_within_k defaultConfig Win 400 1000) as (H1 & _ & H2 & _).
  - cbn. lra.
  - cbn. lra.
  - split; [exact H1|]. exact (H2 eq_refl).
Defined.

(** X2. The opponent's delta of a proposal is the delta the opponent
    would compute as caller for the opposite outcome: the formula treats
    the two sides alike. *)
Theorem opponent_delta_is_mirrored (config : Config) (st : EloStatus) (r1 r2 : R) :
  initialElo config <> 0 ->
  oppoDeltaElo config st r1 r2 = selfDeltaElo config (flipStatus st) r2 r1.
Proof.
  intros _. unfold oppoDeltaElo, selfDeltaElo, oppoE, selfE, diffElo.
  replace (- (r2 - r1) / initialElo config) with ((r1 - r2) / initialElo config)
    by (unfold Rdiv; ring).
  destruct st; cbn; ring.
Qed.

Lemma opponent_delta_is_mirrored_witness :
  oppoDeltaElo defaultConfig Win 400 460 = selfDeltaElo defaultConfig Lose 460 400.
Proof.
  apply (opponent_delta_is_mirrored defaultConfig Win 400 460). cbn. lra.
Defined.

(** X3. Between players of equal rating the expected score is one half
    on both sides, so the caller's delta is half the K factor up for a
    declared win and half the K factor down for a declared loss, and the
    opponent's delta is the opposite. *)
Theorem equal_ratings_half_k (config : Config) (st : EloStatus) (r : R) :
  initialElo config <> 0 ->
  selfDeltaElo config st r r = k config * (statusValue st - / 2)
  /\ oppoDeltaElo config st r r = - (k config * (statusValue st - / 2)).
Proof.
  intros _. unfold selfDeltaElo, oppoDeltaElo, selfE, oppoE, diffElo, pow10.
  replace ((r - r) / initialElo config) with 0 by (unfold Rdiv; ring).
  replace (- (r - r) / initialElo config) with 0 by (unfold Rdiv; ring).
  rewrite Rpower_O by lra. split; field.
Qed.

Lemma equal_ratings_half_k_witness :
  selfDeltaElo defaultConfig Win 400 400 = 16
  /\ oppoDeltaElo defaultConfig Win 400 400 = - 16.
Proof.
  destruct (equal_ratings_half_k defaultConfig Win 400) as [H1 H2].
  - cbn. lra.
  - rewrite H1, H2. cbn. split; lra.
Defined.

(** ** Display (utils.ts) *)

Lemma Math_round_nearest (x : R) (z : Z) :
  IZR z - / 2 <= x < IZR z + / 2 -> Math_round x = z.
Proof.
  intros [H1 H2]. unfold Math_round. symmetry. apply Int_part_spec. lra.
Qed.

(** X5. [showElo] prints the integer nearest to the rating, a half going
    up: a rating within one half below and less than one half above an
    integer of at most 2^53 in absolute value is shown as the decimal
    digits of that integer, so such an integral rating is shown as it
    is. *)
Theorem showElo_nearest (elo : R) (z : Z) :
  (Z.abs z <= 2 ^ 53)%Z ->
  IZR z - / 2 <= elo < IZR z + / 2 -> showElo elo = showZ z.
Proof.
  intros _ H. unfold showElo. now rewrite (Math_round_nearest elo z H).
Qed.

Lemma showElo_nearest_witness :
  showElo 416 = "416" /\ showElo (383 + / 2) = "384".
Proof.
  split.
  - rewrite (showElo_nearest 416 416) by (try lra; cbn; lia). reflexivity.
  - rewrite (showElo_nearest (383 + / 2) 384) by (try lra; cbn; lia). reflexivity.
Defined.

(** X6. [showDeltaElo] prints the nearest integer (of at most 2^53 in
    absolute value) with a plus sign exactly when the delta itself is
    positive: a gain below one half is shown as "+0", and a loss of at
    most one half as "0", without a sign. *)
Theorem showDeltaElo_sign (deltaElo : R) (z : Z) :
  (Z.abs z <= 2 ^ 53)%Z ->
  IZR z - / 2 <= deltaElo < IZR z + / 2 ->
  (0 < deltaElo -> showDeltaElo deltaElo = ("+" ++ showZ z)%string)
  /\ (deltaElo <= 0 -> showDeltaElo deltaElo = showZ z)
  /\ (0 < deltaElo < / 2 -> showDeltaElo deltaElo = "+0")
  /\ (- / 2 <= deltaElo <= 0 -> showDeltaElo deltaElo = "0").
Proof.
  intros _ H. unfold showDeltaElo. rewrite (Math_round_nearest _ _ H).
  assert (Hpos : 0 < deltaElo -> (if Rlt_dec 0 deltaElo then "+" else "") = "+").
  { intros Hd. destruct (Rlt_dec 0 deltaElo); [reflexivity|contradiction]. }
  assert (Hneg : deltaElo <= 0 -> (if Rlt_dec 0 deltaElo then "+" else "") = "").
  { intros Hd. destruct (Rlt_dec 0 deltaElo); [lra|reflexivity]. }
  assert (Hz : - / 2 <= deltaElo < / 2 -> z = 0%Z).
  { intros Hd. destruct (Z.eq_dec z 0) as [E|E]; [assumption|exfalso].
    assert (Hc : (z <= -1)%Z \/ (1 <= z)%Z) by lia.
    destruct Hc as [Hc|Hc]; apply IZR_le in Hc; lra. }
  repeat split.
  - intros Hd. now rewrite Hpos.
  - intros Hd. now rewrite Hneg.
  - intros Hd. rewrite Hpos, Hz by lra. reflexivity.
  - intros Hd. rewrite Hneg, Hz by lra. reflexivity.
Qed.

Lemma showDeltaElo_sign_witness :
  showDeltaElo 16 = "+16" /\ showDeltaElo (- 16) = "-16".
Proof.
  split.
  - destruct (showDeltaElo_sign 16 16) as (H & _); [cbn; lia|lra|].
    rewrite H by lra. reflexivity.
  - destruct (showDeltaElo_sign (- 16) (- 16)) as (_ & H & _); [cbn; lia|lra|].
    rewrite H by lra. reflexivity.
Defined.

(** ** Registration and lookup (index.ts, lines 80-103) *)

Lemma existsb_filter_nil {A : Type} (p : A -> bool) (l : list A) :
  filter p l = [] -> existsb p l = false.
Proof.
  induction l as [|x l IH]; cbn; [reflexivity|].
  destruct (p x); [discriminate|exact IH].
Qed.

Lemma findElo_None_filter (id : string) (db : Database) :
  findElo id db = None ->
  filter (fun p => String.eqb (uid p) id) (w_elo db) = [].
Proof. unfold findElo, getElo. cbn. apply hd_error_nil. Qed.

Lemma findElo_append (id : string) (rows : list Elo) (row : Elo) (reqs : list EloRequest)
      (n : N) (p : Elo) :
  hd_error (filter (fun q => String.eqb (uid q) id) rows) = Some p ->
  findElo id {| w_elo := rows ++ [row]; w_elo_request := reqs; autoInc := n |} = Some p.
Proof.
  unfold findElo, getElo. cbn. rewrite filter_app.
  destruct (filter _ rows); cbn; [discriminate|trivial].
Qed.

(** What [elo.register] does to the database: nothing, or one new row
    for the caller, named by the trimmed name, at the initial rating. *)
Lemma elo_register_cases (config : Config) (u n : string) (db : Database) :
  snd (elo_register config u n db) = db
  \/ (truthy (trim n) = true /\ findElo u db = None
      /\ snd (elo_register config u n db)
         = {| w_elo := w_elo db ++ [ {| uid := u; name := trim n;
                                        elo := initialElo config |} ];
              w_elo_request := w_elo_request db;
              autoInc := autoInc db |}).
Proof.
  unfold elo_register, bind. destruct (truthy (trim n)) eqn:Hn; cbn; [|now left].
  destruct (filter (fun p => String.eqb (uid p) u) (w_elo db)) as [|p l] eqn:E;
    cbn; [|now left].
  right. split; [reflexivity|]. split.
  - unfold findElo, getElo. cbn. now rewrite E.
  - unfold createElo. cbn. rewrite (existsb_filter_nil _ _ E). reflexivity.
Qed.

(** X7. [elo.register] by an identity without a row, with a name that is
    not blank, answers [elo-register-ok] with the trimmed name and the
    configured initial rating and appends exactly that row; [elo.check]
    by the same identity then reports the trimmed name and the initial
    rating as displayed.  Requests and the [rid] counter are untouched. *)
Theorem register_creates_player (config : Config) (id rawName : string)
        (db : Database) :
  truthy (trim rawName) = true ->
  findElo id db = None ->
  let row := {| uid := id; name := trim rawName; elo := initialElo config |} in
  let after := snd (elo_register config id rawName db) in
  fst (elo_register config id rawName db)
  = elo_register_ok (trim rawName) (initialElo config)
  /\ w_elo after = w_elo db ++ [row]
  /\ w_elo_request after = w_elo_request db
  /\ autoInc after = autoInc db
  /\ findElo id after = Some row
  /\ fst (elo_check_cmd id None after)
     = elo_check (trim rawName) (showElo (initialElo config)).
Proof.
  intros Hn Hid row after.
  pose proof (findElo_None_filter id db Hid) as E.
  assert (Hrun : elo_register config id rawName db
                 = (elo_register_ok (trim rawName) (initialElo config),
                    {| w_elo := w_elo db ++ [row];
                       w_elo_request := w_elo_request db;
                       autoInc := autoInc db |})).
  { unfold elo_register, bind. rewrite Hn. cbn. rewrite E. cbn.
    unfold createElo. cbn. rewrite (existsb_filter_nil _ _ E). reflexivity. }
  subst after. rewrite Hrun. cbn [fst snd w_elo w_elo_request autoInc].
  assert (Hfind : filter (fun p => String.eqb (uid p) id) (w_elo db ++ [row]) = [row]).
  { rewrite filter_app, E. cbn. now rewrite String.eqb_refl. }
  repeat split.
  - unfold findElo, getElo. cbn. now rewrite Hfind.
  - unfold elo_check_cmd, bind, getElo. cbn. now rewrite Hfind.
Qed.

Lemma register_creates_player_witness :
  fst (elo_register defaultConfig "C" "  carol " proposedDb)
  = elo_register_ok "carol" 400
  /\ findElo "C" (snd (elo_register defaultConfig "C" "  carol " proposedDb))
     = Some {| uid := "C"; name := "carol"; elo := 400 |}
  /\ fst (elo_check_cmd "C" None
            (snd (elo_register defaultConfig "C" "  carol " proposedDb)))
     = elo_check "carol" (showElo 400).
Proof.
  destruct (register_creates_player defaultConfig "C" "  carol " proposedDb
              eq_refl eq_refl) as (H1 & _ & _ & _ & H2 & H3).
  split; [exact H1|]. split; [exact H2|exact H3].
Defined.

(** X8. [elo.check] only reads.  It looks up the given user, or the
    caller when none (or an empty one) is given, and reports the stored
    name with the rating as displayed; a given user without a row is
    answered [elo-user-not-found] with that id, and a caller without a
    row who names nobody is answered [elo-need-register]. *)
Theorem elo_check_reads (sessionUid : string) (userId : option string)
        (db : Database) :
  let queried := match userId with
                 | Some (String c u) => String c u
                 | _ => sessionUid
                 end in
  snd (elo_check_cmd sessionUid userId db) = db
  /\ (forall user, findElo queried db = Some user ->
        fst (elo_check_cmd sessionUid userId db)
        = elo_check (name user) (showElo (elo user)))
  /\ (findElo queried db = None ->
        fst (elo_check_cmd sessionUid userId db)
        = match userId with
          | Some (String c u) => elo_user_not_found (String c u)
          | _ => elo_need_register
          end).
Proof.
  intros queried. split; [apply elo_check_db|].
  unfold elo_check_cmd, bind, getElo, findElo. cbn.
  assert (Hq : match userId with
               | Some u => if truthy u then u else sessionUid
               | None => sessionUid
               end = queried).
  { subst queried. destruct userId as [[|c u]|]; reflexivity. }
  rewrite Hq. split.
  - intros user Hu. apply hd_error_cons in Hu. destruct Hu as [l' ->]. reflexivity.
  - intros Hu. apply hd_error_nil in Hu. rewrite Hu.
    destruct userId as [[|c u]|]; reflexivity.
Qed.

Lemma elo_check_reads_witness :
  snd (elo_check_cmd "B" (Some "A") confirmedDb) = confirmedDb
  /\ fst (elo_check_cmd "B" (Some "A") confirmedDb)
     = elo_check "alice" (showElo (400 + selfDeltaElo defaultConfig Win 400 400))
  /\ fst (elo_check_cmd "B" (Some "Z") confirmedDb) = elo_user_not_found "Z"
  /\ fst (elo_check_cmd "Z" (Some "") confirmedDb) = elo_need_register.
Proof.
  destruct (elo_check_reads "B" (Some "A") confirmedDb) as (H1 & H2 & _).
  destruct (elo_check_reads "B" (Some "Z") confirmedDb) as (_ & _ & H3).
  destruct (elo_check_reads "Z" (Some "") confirmedDb) as (_ & _ & H4).
  split; [exact H1|]. split; [exact (H2 _ eq_refl)|].
  split; [exact (H3 eq_refl)|exact (H4 eq_refl)].
Defined.

(** ** What every reachable database keeps *)

Lemma reachable_handle (config : Config) (c : Command) (db : Database) :
  reachable config db -> reachable config (snd (handle config c db)).
Proof. intros H. exact (reachable_exec config [c] db H). Qed.

(** Induction over the commands that built a database. *)
Lemma reachable_induction (config : Config) (P : Database -> Prop) :
  P emptyDatabase ->
  (forall c db, reachable config db -> P db -> P (snd (handle config c db))) ->
  forall db, reachable config db -> P db.
Proof.
  intros H0 Hstep db [cs ->].
  assert (Hgen : forall cs db0, reachable config db0 -> P db0 -> P (exec config cs db0)).
  { clear cs. induction cs as [|c cs IH]; intros db0 Hr Hp; cbn; [assumption|].
    apply IH; [now apply reachable_handle|now apply Hstep]. }
  apply Hgen; [now exists []|assumption].
Qed.

Lemma findElo_None_uid (id : string) (db : Database) :
  findElo id db = None -> ~ In id (map uid (w_elo db)).
Proof.
  intros H Hin. apply findElo_None_filter in H.
  apply in_map_iff in Hin. destruct Hin as (p & Hp & Hin).
  rewrite filter_nil_iff in H. specialize (H p Hin).
  subst id. now rewrite String.eqb_refl in H.
Qed.

Lemma acceptRequest_uids (selfId oppoId : string) (self oppo : Elo)
      (req : EloRequest) (db : Database) :
  map uid (w_elo (snd (acceptRequest selfId oppoId self oppo req db)))
  = map uid (w_elo db).
Proof.
  rewrite acceptRequest_db. cbn. rewrite !map_map.
  apply map_ext. intros p. now rewrite !uid_setRow.
Qed.

Lemma acceptRequest_names (selfId oppoId : string) (self oppo : Elo)
      (req : EloRequest) (db : Database) :
  map name (w_elo (snd (acceptRequest selfId oppoId self oppo req db)))
  = map name (w_elo db).
Proof.
  rewrite acceptRequest_db. cbn. rewrite !map_map.
  apply map_ext. intros p. now rewrite !name_setRow.
Qed.

(** X9. The primary key is kept: in every database the plugin can reach,
    no two rows of [w-elo] have the same [uid], because [elo.register]
    writes only after its lookup found no row. *)
Theorem uid_unique (config : Config) (cs : list Command) :
  NoDup (map uid (w_elo (exec config cs emptyDatabase))).
Proof.
  apply (reachable_induction config (fun db => NoDup (map uid (w_elo db)))).
  - constructor.
  - intros c db _ Hnd. destruct c as [u n|u t|u o w]; cbn [handle].
    + destruct (elo_register_cases config u n db) as [->|(_ & Hu & ->)];
        [assumption|]. cbn. rewrite map_app. cbn.
      apply NoDup_app; [assumption|constructor; [intros []|constructor]|].
      intros x Hx [<-|[]]. now apply (findElo_None_uid u db).
    + now rewrite elo_check_db.
    + destruct (elo_update_cases config u o w db)
        as [->|[(self & oppo & req & _ & _ & _ & ->)
               |(self & oppo & _ & _ & _ & _ & ->)]].
      * assumption.
      * now rewrite acceptRequest_uids.
      * assumption.
  - now exists cs.
Qed.

(** *** Names *)

Lemma trimStart_head (s : string) (c : ascii) (t : string) :
  trimStart s = String c t -> isWhiteSpace c = false.
Proof.
  induction s as [|d s IH]; cbn; [discriminate|].
  destruct (isWhiteSpace d) eqn:Hd; [exact IH|].
  intros [= <- _]. exact Hd.
Qed.

Lemma trimEnd_head (c : ascii) (s : string) :
  isWhiteSpace c = false -> exists t, trimEnd (String c s) = String c t.
Proof.
  intros Hc. cbn. destruct (trimEnd s) as [|d t]; rewrite ?Hc; eauto.
Qed.

Lemma trimEnd_idempotent (s : string) : trimEnd (trimEnd s) = trimEnd s.
Proof.
  induction s as [|c s IH]; cbn; [reflexivity|].
  destruct (trimEnd s) as [|d t] eqn:E.
  - destruct (isWhiteSpace c) eqn:Hc; cbn; [reflexivity|now rewrite Hc].
  - change (trimEnd (String c (String d t)) = String c (String d t)).
    cbn [trimEnd] in IH |- *. cbn [trimEnd]. 
    destruct (match trimEnd t with
              | EmptyString => if isWhiteSpace d then EmptyString else String d EmptyString
              | String a u => String d (String a u)
              end) as [|a u] eqn:E'; [discriminate IH|].
    now rewrite IH.
Qed.

Lemma trim_idempotent (s : string) : trim (trim s) = trim s.
Proof.
  unfold trim. destruct (trimStart s) as [|c t] eqn:E; [reflexivity|].
  pose proof (trimStart_head s c t E) as Hc.
  destruct (trimEnd_head c t Hc) as [u Hu]. rewrite Hu.
  assert (Hs : trimStart (String c u) = String c u) by (cbn; now rewrite Hc).
  rewrite Hs, <- Hu. apply trimEnd_idempotent.
Qed.

(** X10. Every name stored in a reachable database is as [elo.register]
    wrote it: not empty, and without white space at either end (trimming
    it again changes nothing). *)
Theorem names_trimmed (config : Config) (cs : list Command) :
  Forall (fun p => truthy (name p) = true /\ trim (name p) = name p)
         (w_elo (exec config cs emptyDatabase)).
Proof.
  set (ok := fun s : string => truthy s = true /\ trim s = s).
  assert (H : Forall ok (map name (w_elo (exec config cs emptyDatabase)))).
  { apply (reachable_induction config (fun db => Forall ok (map name (w_elo db)))).
    - constructor.
    - intros c db _ Hok. destruct c as [u n|u t|u o w]; cbn [handle].
      + destruct (elo_register_cases config u n db) as [->|(Hn & _ & ->)];
          [assumption|]. cbn. rewrite map_app. apply Forall_app. split; [assumption|].
        constructor; [|constructor]. cbn. split; [assumption|apply trim_idempotent].
      + now rewrite elo_check_db.
      + destruct (elo_update_cases config u o w db)
          as [->|[(self & oppo & req & _ & _ & _ & ->)
                 |(self & oppo & _ & _ & _ & _ & ->)]].
        * assumption.
        * now rewrite acceptRequest_names.
        * assumption.
    - now exists cs. }
  rewrite Forall_map in H. exact H.
Qed.

(** *** Players *)

Lemma findElo_createElo_Some (id : string) (row p : Elo) (db : Database) :
  findElo id db = Some p -> findElo id (snd (createElo row db)) = Some p.
Proof.
  unfold createElo. destruct (existsb _ (w_elo db)); cbn; [trivial|].
  intros H. now apply findElo_append.
Qed.

Lemma handle_keeps_player (config : Config) (c : Command) (db : Database)
      (id : string) (p : Elo) :
  findElo id db = Some p ->
  exists p', findElo id (snd (handle config c db)) = Some p'
             /\ uid p' = uid p /\ name p' = name p.
Proof.
  intros Hp. destruct c as [u n|u t|u o w]; cbn [handle].
  - exists p. split; [|auto].
    destruct (elo_register_db config u n db) as [->|[row ->]];
      [assumption|now apply findElo_createElo_Some].
  - exists p. now rewrite elo_check_db.
  - destruct (elo_update_cases config u o w db)
      as [->|[(self & oppo & req & _ & _ & _ & ->)
             |(self & oppo & _ & _ & _ & _ & ->)]].
    + now exists p.
    + rewrite findElo_acceptRequest, Hp. cbn. eexists. split; [reflexivity|].
      now rewrite !uid_setRow, !name_setRow.
    + now exists p.
Qed.

(** X11. A registered player stays registered under the same name: no
    sequence of commands removes a row of [w-elo] or changes its [uid] or
    [name]; only its rating can differ afterwards. *)
Theorem players_persist (config : Config) (cs : list Command) (db : Database)
        (id : string) (p : Elo) :
  findElo id db = Some p ->
  exists p', findElo id (exec config cs db) = Some p'
             /\ uid p' = uid p /\ name p' = name p.
Proof.
  revert db p. induction cs as [|c cs IH]; intros db p Hp; cbn.
  - now exists p.
  - destruct (handle_keeps_player config c db id p Hp) as (q & Hq & Hu & Hn).
    destruct (IH _ q Hq) as (r & Hr & Hu' & Hn').
    exists r. split; [assumption|]. split; congruence.
Qed.

Lemma players_persist_witness :
  exists p', findElo "A"
               (exec defaultConfig
                  [Update "B" "A" None; Register "A" "eve"; Update "A" "B" None]
                  proposedDb) = Some p'
             /\ uid p' = "A" /\ name p' = "alice".
Proof.
  apply (players_persist defaultConfig _ proposedDb "A"
           {| uid := "A"; name := "alice"; elo := 400 |}).
  reflexivity.
Defined.

(** X12. Ratings move only by a confirmation.  Any command other than an
    [elo.update] that finds a request of the opponent against the caller
    leaves every row of [w-elo] as it was, in place: the table is the same,
    or, for an [elo.register], the same with the one new row of the caller
    at the end. *)
Theorem ratings_change_only_by_confirmation (config : Config) (c : Command)
        (db : Database) :
  (forall s o w, c = Update s o w -> findRequest o s db = None) ->
  (w_elo (snd (handle config c db)) = w_elo db
   \/ exists u n,
        c = Register u n
        /\ w_elo (snd (handle config c db))
           = w_elo db ++ [ {| uid := u; name := trim n; elo := initialElo config |} ])
  /\ forall id p, findElo id db = Some p ->
                  findElo id (snd (handle config c db)) = Some p.
Proof.
  intros Hc.
  assert (H : w_elo (snd (handle config c db)) = w_elo db
              \/ exists u n,
                   c = Register u n
                   /\ w_elo (snd (handle config c db))
                      = w_elo db ++ [ {| uid := u; name := trim n;
                                         elo := initialElo config |} ]).
  { destruct c as [u n|u t|u o w]; cbn [handle].
    - destruct (elo_register_cases config u n db) as [->|(_ & _ & ->)];
        [now left|right; exists u, n; split; reflexivity].
    - left. now rewrite elo_check_db.
    - left. destruct (elo_update_cases config u o w db)
        as [->|[(self & oppo & req & _ & _ & Hr & _)
               |(self & oppo & _ & _ & _ & _ & ->)]]; [reflexivity| |reflexivity].
      rewrite (Hc u o w eq_refl) in Hr. discriminate. }
  split; [exact H|].
  intros id p. unfold findElo, getElo. cbn.
  destruct H as [->|(u & n & _ & ->)]; [trivial|].
  rewrite filter_app. now destruct (filter _ (w_elo db)).
Qed.

Lemma ratings_change_only_by_confirmation_witness :
  findElo "B" (snd (handle defaultConfig (Update "A" "B" (Some false)) proposedDb))
  = Some {| uid := "B"; name := "bob"; elo := 400 |}
  /\ w_elo (snd (handle defaultConfig (Register "C" " carol") proposedDb))
     = w_elo proposedDb ++ [ {| uid := "C"; name := "carol"; elo := 400 |} ].
Proof.
  split.
  - destruct (ratings_change_only_by_confirmation defaultConfig
                (Update "A" "B" (Some false)) proposedDb) as [_ H].
    + intros s o w [= <- <- <-]. reflexivity.
    + apply H. reflexivity.
  - destruct (ratings_change_only_by_confirmation defaultConfig
                (Register "C" " carol") proposedDb) as [[H|(u & n & E & H)] _].
    + intros s o w. discriminate.
    + apply (f_equal (@List.length Elo)) in H. vm_compute in H. discriminate H.
    + injection E as <- <-. exact H.
Defined.

(** ** The challenge command (index.ts, lines 105-186) *)

(** X13. The caller is looked up first: an [elo.update] by an identity
    without a row is answered [elo-need-register] whoever the opponent is,
    and one by a registered caller against an identity without a row is
    answered [elo-user-not-found] with the opponent's id.  Neither writes
    anything. *)
Theorem update_needs_both_players (config : Config) (selfId oppoId : string)
        (win : option bool) (db : Database) :
  (findElo selfId db = None ->
   elo_update config selfId oppoId win db = (elo_need_register, db))
  /\ (findElo selfId db <> None -> findElo oppoId db = None ->
      elo_update config selfId oppoId win db = (elo_user_not_found oppoId, db)).
Proof.
  split.
  - apply elo_update_unregistered.
  - intros Hs Ho. destruct (findElo selfId db) as [self|] eqn:E; [|contradiction].
    now apply (elo_update_unknown config selfId oppoId win db self).
Qed.

Lemma update_needs_both_players_witness :
  elo_update defaultConfig "Y" "Z" (Some true) proposedDb
  = (elo_need_register, proposedDb)
  /\ elo_update defaultConfig "A" "Y" (Some true) proposedDb
     = (elo_user_not_found "Y", proposedDb).
Proof.
  destruct (update_needs_both_players defaultConfig "Y" "Z" (Some true) proposedDb)
    as [H1 _].
  destruct (update_needs_both_players defaultConfig "A" "Y" (Some true) proposedDb)
    as [_ H2].
  split; [apply H1; reflexivity|apply H2; [discriminate|reflexivity]].
Defined.

(** X14. A confirmation applies what the proposer's request stored and
    nothing else: neither the flag the confirming caller passes nor the
    configuration in force at that moment has any effect on the reply or
    on what is written. *)
Theorem confirmation_ignores_flag_and_config (config config' : Config)
        (selfId oppoId : string) (win win' : option bool) (db : Database)
        (req : EloRequest) :
  findElo selfId db <> None ->
  findElo oppoId db <> None ->
  findRequest oppoId selfId db = Some req ->
  elo_update config selfId oppoId win db
  = elo_update config' selfId oppoId win' db.
Proof.
  intros Hs Ho Hr.
  destruct (findElo selfId db) as [self|] eqn:Es; [|contradiction].
  destruct (findElo oppoId db) as [oppo|] eqn:Eo; [|contradiction].
  rewrite (elo_update_accept config _ _ win db self oppo Es Eo req Hr).
  now rewrite (elo_update_accept config' _ _ win' db self oppo Es Eo req Hr).
Qed.

Lemma confirmation_ignores_flag_and_config_witness :
  elo_update defaultConfig "B" "A" (Some true) proposedDb
  = elo_update {| initialElo := 1000; k := 64 |} "B" "A" (Some false) proposedDb.
Proof.
  apply (confirmation_ignores_flag_and_config _ _ "B" "A" _ _ proposedDb
           proposedRequest).
  - discriminate.
  - discriminate.
  - reflexivity.
Defined.

(** ** Proposal followed by confirmation *)

Lemma remove_fresh_rid (reqs : list EloRequest) (n : N) :
  Forall (fun r => (rid r < n)%N) reqs ->
  filter (fun r => negb (N.eqb (rid r) n)) reqs = reqs.
Proof.
  intros H. apply forallb_filter_id. apply forallb_forall. intros r Hr.
  rewrite Forall_forall in H. specialize (H r Hr). cbn in H.
  apply negb_true_iff, N.eqb_neq. lia.
Qed.

(** The request a proposal appends is the one a lookup in its direction
    finds next. *)
Lemma findRequest_after_propose (s d : string) (st : EloStatus) (sd dd : R)
      (db : Database) :
  findRequest s d db = None ->
  findRequest s d (snd (createRequest s d st sd dd db))
  = Some {| rid := autoInc db; src := s; dest := d; status := st;
            srcDeltaElo := sd; destDeltaElo := dd |}.
Proof.
  unfold findRequest, getRequest. cbn. intros H. apply hd_error_nil in H.
  rewrite filter_app, H. cbn. now rewrite !String.eqb_refl.
Qed.

(** The database after [a] proposes against [b] and [b] confirms. *)
Lemma propose_then_confirm_db (config : Config) (a b : string)
      (w w' : option bool) (db : Database) (pa pb : Elo) :
  Invariant db ->
  findElo a db = Some pa -> findElo b db = Some pb ->
  findRequest a b db = None -> findRequest b a db = None ->
  let st := declaredStatus w in
  let sd := selfDeltaElo config st (elo pa) (elo pb) in
  let dd := oppoDeltaElo config st (elo pa) (elo pb) in
  elo_update config b a w' (snd (elo_update config a b w db))
  = (elo_update_accept_ok (name pb) (name pa)
       (showElo (elo pb + dd)) (showDeltaElo dd)
       (showElo (elo pa + sd)) (showDeltaElo sd) (flipStatus st),
     {| w_elo := map (setRow a (elo pa + sd)) (map (setRow b (elo pb + dd)) (w_elo db));
        w_elo_request := w_elo_request db;
        autoInc := N.succ (autoInc db) |}).
Proof.
  intros Hinv Ha Hb Hab Hba st sd dd.
  rewrite (elo_update_propose config a b w db pa pb Ha Hb Hba Hab).
  cbn [snd]. fold st sd dd.
  set (db1 := snd (createRequest a b st sd dd db)).
  assert (Hr : findRequest a b db1
               = Some {| rid := autoInc db; src := a; dest := b; status := st;
                         srcDeltaElo := sd; destDeltaElo := dd |})
    by (now apply findRequest_after_propose).
  rewrite (elo_update_accept config b a w' db1 pb pa Hb Ha _ Hr).
  unfold acceptRequest, bind, ret, setElo, removeRequest. cbn.
  rewrite filter_app. cbn. rewrite N.eqb_refl. cbn.
  rewrite app_nil_r, remove_fresh_rid by apply Hinv. reflexivity.
Qed.

(** X15. Proposal and confirmation compose.  When [a] proposes against a
    different player [b] with nothing pending between them and [b]
    confirms, the table of requests is back to what it was, [a]'s rating
    has moved by the caller's delta of the proposal and [b]'s by the
    opponent's delta, both computed from the ratings at proposal time, and
    [b] is told the outcome from its side. *)
Theorem propose_then_confirm (config : Config) (a b : string)
        (w w' : option bool) (db : Database) (pa pb : Elo) :
  reachable config db ->
  a <> b ->
  findElo a db = Some pa -> findElo b db = Some pb ->
  findRequest a b db = None -> findRequest b a db = None ->
  let st := declaredStatus w in
  let sd := selfDeltaElo config st (elo pa) (elo pb) in
  let dd := oppoDeltaElo config st (elo pa) (elo pb) in
  let final := exec config [Update a b w; Update b a w'] db in
  w_elo_request final = w_elo_request db
  /\ findElo a final = Some (withElo pa (elo pa + sd))
  /\ findElo b final = Some (withElo pb (elo pb + dd))
  /\ fst (elo_update config b a w' (snd (elo_update config a b w db)))
     = elo_update_accept_ok (name pb) (name pa)
         (showElo (elo pb + dd)) (showDeltaElo dd)
         (showElo (elo pa + sd)) (showDeltaElo sd) (flipStatus st).
Proof.
  intros Hreach Hne Ha Hb Hab Hba st sd dd final.
  apply reachable_Invariant in Hreach.
  pose proof (propose_then_confirm_db config a b w w' db pa pb
                Hreach Ha Hb Hab Hba) as Hrun.
  cbn zeta in Hrun. fold st sd dd in Hrun.
  subst final. cbn [exec handle]. rewrite Hrun. cbn [fst snd w_elo_request].
  split; [reflexivity|].
  assert (Hfind : forall id p, findElo id db = Some p ->
            findElo id {| w_elo := map (setRow a (elo pa + sd))
                                     (map (setRow b (elo pb + dd)) (w_elo db));
                          w_elo_request := w_elo_request db;
                          autoInc := N.succ (autoInc db) |}
            = Some (setRow a (elo pa + sd) (setRow b (elo pb + dd) p))).
  { intros id p Hp. unfold findElo, getElo in *. cbn in *.
    rewrite !filter_map_commute by (intros x; now rewrite uid_setRow).
    apply hd_error_cons in Hp. destruct Hp as [l' ->]. reflexivity. }
  split; [|split; [|reflexivity]].
  - rewrite (Hfind a pa Ha). f_equal.
    apply setRow_twice_opponent. now apply findElo_In in Ha.
  - rewrite (Hfind b pb Hb). f_equal.
    apply setRow_twice_caller; [now apply findElo_In in Hb|congruence].
Qed.

Lemma propose_then_confirm_witness :
  let final := exec defaultConfig [Update "A" "B" (Some true); Update "B" "A" None]
                 (exec defaultConfig twoPlayers emptyDatabase) in
  w_elo_request final = []
  /\ findElo "A" final
     = Some {| uid := "A"; name := "alice";
               elo := 400 + selfDeltaElo defaultConfig Win 400 400 |}
  /\ findElo "B" final
     = Some {| uid := "B"; name := "bob";
               elo := 400 + oppoDeltaElo defaultConfig Win 400 400 |}.
Proof.
  destruct (propose_then_confirm defaultConfig "A" "B" (Some true) None
              (exec defaultConfig twoPlayers emptyDatabase)
              {| uid := "A"; name := "alice"; elo := 400 |}
              {| uid := "B"; name := "bob"; elo := 400 |})
    as (H1 & H2 & H3 & _).
  - exists twoPlayers. reflexivity.
  - discriminate.
  - reflexivity.
  - reflexivity.
  - reflexivity.
  - reflexivity.
  - cbn zeta. split; [exact H1|]. split; [exact H2|exact H3].
Defined.

(** ** A player against itself *)

Lemma selfDeltaElo_level (config : Config) (st : EloStatus) (r : R) :
  selfDeltaElo config st r r = k config * (statusValue st - / 2).
Proof.
  unfold selfDeltaElo, selfE, diffElo, pow10.
  replace ((r - r) / initialElo config) with 0 by (unfold Rdiv; ring).
  rewrite Rpower_O by lra. field.
Qed.

(** X18. Nothing stops a player from naming itself as opponent.  The
    first such call stores a request from the player to itself; the next
    one finds that request as the reverse-direction match, so it is taken
    as its confirmation: it is answered [elo-update-accept-ok], the request
    is removed, and of the two ratings written to the player's one row the
    opponent's, written second, stays, which moves the rating by half the
    K factor in the declared direction. *)
Theorem self_challenge_confirms_itself (config : Config) (a : string)
        (w w' : option bool) (db : Database) (p : Elo) :
  initialElo config <> 0 ->
  reachable config db ->
  findElo a db = Some p ->
  findRequest a a db = None ->
  let st := declaredStatus w in
  let final := exec config [Update a a w; Update a a w'] db in
  challengeError (fst (elo_update config a a w' (snd (elo_update config a a w db))))
  = None
  /\ (exists n m e1 d1 e2 d2 s,
        fst (elo_update config a a w' (snd (elo_update config a a w db)))
        = elo_update_accept_ok n m e1 d1 e2 d2 s)
  /\ w_elo_request final = w_elo_request db
  /\ findElo a final
     = Some (withElo p (elo p + k config * (statusValue st - / 2))).
Proof.
  intros _ Hreach Hp Hnone st final.
  apply reachable_Invariant in Hreach.
  pose proof (propose_then_confirm_db config a a w w' db p p
                Hreach Hp Hp Hnone Hnone) as Hrun.
  cbn zeta in Hrun. fold st in Hrun.
  subst final. cbn [exec handle]. rewrite Hrun. cbn [fst snd w_elo_request].
  split; [reflexivity|]. split; [repeat eexists|]. split; [reflexivity|].
  unfold findElo, getElo in *. cbn in *.
  rewrite !filter_map_commute by (intros x; now rewrite uid_setRow).
  apply hd_error_cons in Hp. destruct Hp as [l' Hp]. rewrite Hp. cbn.
  assert (Hu : uid p = a).
  { assert (Hin : In p (filter (fun q => String.eqb (uid q) a) (w_elo db)))
      by (rewrite Hp; now left).
    apply filter_In in Hin. now apply String.eqb_eq. }
  rewrite (setRow_twice_opponent a a _ _ p Hu).
  now rewrite selfDeltaElo_level.
Qed.

Lemma self_challenge_confirms_itself_witness :
  findElo "A" (exec defaultConfig [Update "A" "A" (Some true); Update "A" "A" None]
                 (exec defaultConfig twoPlayers emptyDatabase))
  = Some {| uid := "A"; name := "alice"; elo := 400 + 32 * (1 - / 2) |}.
Proof.
  destruct (self_challenge_confirms_itself defaultConfig "A" (Some true) None
              (exec defaultConfig twoPlayers emptyDatabase)
              {| uid := "A"; name := "alice"; elo := 400 |})
    as (_ & _ & _ & H).
  - cbn. lra.
  - exists twoPlayers. reflexivity.
  - reflexivity.
  - reflexivity.
  - exact H.
Defined.
